(** * A shallow embedding of the RSA core of [app.py]

    The seven functions of the core ([is_prime], [generate_prime], [gcd],
    [mod_inverse], [generate_keypair], [encrypt], [decrypt]) are embedded
    as Rocq functions over [Z], Python's unbounded [int].

    - Python's [//] and [%] are floor division and the matching remainder,
      which is what [Z.div] and [Z.modulo] compute for a non-zero divisor;
      a zero divisor raises [ZeroDivisionError] and is written out.
    - [random] and the [st.*] calls of streamlit are the two effects of the
      code.  Both are threaded through an explicit [world]: an entropy tape
      with a cursor, and the log of the streamlit calls made so far.
    - [while] loops run on fuel.  [gcd], [mod_inverse] and the loop that
      splits [n - 1] get a fuel computed from their arguments and shown to
      be enough; the retry loops of [generate_prime] and [generate_keypair]
      have no bound in the source and take their fuel from the caller. *)

From Stdlib Require Import ZArith List Lia Bool Eqdep_dec.
From Stdlib Require Import Znumtheory Zpow_facts Zcong Zmod.
Import ListNotations.
Local Open Scope Z_scope.

(** ** Outcomes of a call *)

Inductive exn : Type :=
| ValueError
| OverflowError
| ZeroDivisionError.

Inductive outcome (A : Type) : Type :=
| Done (a : A)
| Raise (e : exn)
| OutOfFuel.

Arguments Done {A} a.
Arguments Raise {A} e.
Arguments OutOfFuel {A}.

(** ** The world: entropy tape and streamlit log *)

Inductive ui_kind : Type :=
| Info | Success | Error | Code | Markdown | Expander | Columns.

(** One [st.<kind>(...)] call; [ui_args] are the integers interpolated in
    its message, in order (a character is given by its code point).  The
    fixed text of the message is not kept. *)
Record ui_call : Type := UiCall { ui_fn : ui_kind; ui_args : list Z }.

Record world : Type := World {
  rng : nat -> Z;        (* raw entropy, one cell per draw *)
  cursor : nat;          (* next cell to be consumed *)
  ui : list ui_call      (* streamlit calls made so far, oldest first *)
}.

Definition M (A : Type) : Type := world -> outcome A * world.

Definition ret {A} (a : A) : M A := fun w => (Done a, w).

Definition bind {A B} (c : M A) (k : A -> M B) : M B :=
  fun w =>
    match c w with
    | (Done a, w') => k a w'
    | (Raise e, w') => (Raise e, w')
    | (OutOfFuel, w') => (OutOfFuel, w')
    end.

Definition lift {A} (r : outcome A) : M A := fun w => (r, w).

Definition out_of_fuel {A} : M A := lift OutOfFuel.

Notation "x <- c ;; k" := (bind c (fun x => k))
  (at level 61, c at next level, right associativity).
Notation "c ;; k" := (bind c (fun _ => k))
  (at level 61, right associativity).

Definition emit (k : ui_kind) (args : list Z) : M unit :=
  fun w => (Done tt, World (rng w) (cursor w) (ui w ++ [UiCall k args])).

Definition draw : M Z :=
  fun w => (Done (rng w (cursor w)), World (rng w) (S (cursor w)) (ui w)).

(** [random.randint(lo, hi)]: some integer of [lo..hi], [ValueError] on an
    empty range. *)
Definition randint (lo hi : Z) : M Z :=
  if hi <? lo then lift (Raise ValueError)
  else v <- draw ;; ret (lo + v mod (hi - lo + 1)).

(** [random.getrandbits(k)]: some integer of [0 .. 2^k - 1]. *)
Definition getrandbits (k : Z) : M Z :=
  if k <? 0 then lift (Raise ValueError)
  else v <- draw ;; ret (v mod 2 ^ k).

(** ** Built-ins *)

(** [a << k] *)
Definition shl (a k : Z) : outcome Z :=
  if k <? 0 then Raise ValueError else Done (Z.shiftl a k).

(** [pow(b, e, m)].  A negative exponent inverts the base modulo [m]. *)
Definition pow3 (b e m : Z) : outcome Z :=
  if m =? 0 then Raise ValueError
  else if e <? 0 then
    if Z.gcd b m =? 1 then Done (Zpow_mod (Z.invmod b m) (- e) m)
    else Raise ValueError
  else Done (Zpow_mod b e m).

(** A character is a Unicode code point, [0 .. 0x10FFFF]. *)
Definition is_codepoint (z : Z) : bool := (0 <=? z) && (z <? 1114112).

Record char : Type := Char { ord : Z; ord_ok : is_codepoint ord = true }.

(** [chr(z)]: [ValueError] outside the code points, [OverflowError] when
    [z] does not even fit a C [int]. *)
Definition chr (z : Z) : outcome char :=
  match bool_dec (is_codepoint z) true with
  | left H => Done (Char z H)
  | right _ =>
      if (z <? - 2147483648) || (2147483647 <? z) then Raise OverflowError
      else Raise ValueError
  end.

Definition str : Type := list char.

(** ** [is_prime] *)

(** [while d % 2 == 0: s += 1; d //= 2] *)
Fixpoint split_twos (fuel : nat) (s d : Z) : outcome (Z * Z) :=
  match fuel with
  | O => OutOfFuel
  | S fuel' =>
      if d mod 2 =? 0 then split_twos fuel' (s + 1) (d / 2)
      else Done (s, d)
  end.

(** The inner [for _ in range(s - 1)] with its [else]: [true] when the loop
    was left by [break], [false] when it ran to its end. *)
Fixpoint squarings (r : nat) (x n : Z) : outcome bool :=
  match r with
  | O => Done false
  | S r' =>
      match pow3 x 2 n with
      | Done x' => if x' =? n - 1 then Done true else squarings r' x' n
      | Raise e => Raise e
      | OutOfFuel => OutOfFuel
      end
  end.

(** [for _ in range(k)] *)
Fixpoint witness_rounds (k : nat) (n s d : Z) : M bool :=
  match k with
  | O => ret true
  | S k' =>
      a <- randint 2 (n - 2) ;;
      x <- lift (pow3 a d n) ;;
      if (x =? 1) || (x =? n - 1) then witness_rounds k' n s d
      else
        broke <- lift (squarings (Z.to_nat (s - 1)) x n) ;;
        if broke then witness_rounds k' n s d else ret false
  end.

Definition is_prime (n k : Z) : M bool :=
  if (n <=? 1) || (n =? 4) then ret false
  else if n <=? 3 then ret true
  else if n mod 2 =? 0 then ret false
  else
    sd <- lift (split_twos (S (Z.abs_nat (n - 1))) 0 (n - 1)) ;;
    witness_rounds (Z.to_nat k) n (fst sd) (snd sd).

(** ** [generate_prime] *)

Fixpoint generate_prime (fuel : nat) (bits : Z) : M Z :=
  match fuel with
  | O => out_of_fuel
  | S fuel' =>
      p <- getrandbits bits ;;
      msb <- lift (shl 1 (bits - 1)) ;;
      let p := Z.lor p (Z.lor msb 1) in
      ok <- is_prime p 5 ;;
      if ok then ret p else generate_prime fuel' bits
  end.

(** ** [gcd] and [mod_inverse] *)

Fixpoint gcd_loop (fuel : nat) (a b : Z) : outcome Z :=
  match fuel with
  | O => OutOfFuel
  | S fuel' => if b =? 0 then Done a else gcd_loop fuel' b (a mod b)
  end.

Definition gcd (a b : Z) : outcome Z := gcd_loop (S (Z.abs_nat b)) a b.

(** The loop [while a > 1] on the four variables [a], [m], [x], [y]; it
    returns the final [x]. *)
Fixpoint mod_inverse_loop (fuel : nat) (a m x y : Z) : outcome Z :=
  match fuel with
  | O => OutOfFuel
  | S fuel' =>
      if 1 <? a then
        if m =? 0 then Raise ZeroDivisionError
        else
          let q := a / m in
          mod_inverse_loop fuel' m (a mod m) y (x - q * y)
      else Done x
  end.

Definition mod_inverse (a m : Z) : outcome Z :=
  let m0 := m in
  if m =? 1 then Done 0
  else
    match mod_inverse_loop (S (Z.abs_nat m)) a m 1 0 with
    | Done x => Done (if x <? 0 then x + m0 else x)
    | Raise e => Raise e
    | OutOfFuel => OutOfFuel
    end.

(** ** [generate_keypair] *)

Definition key : Type := (Z * Z)%type.

(** [while p == q: q = generate_prime(bits // 2)] *)
Fixpoint regenerate_q (fuel inner : nat) (bits p q : Z) : M Z :=
  match fuel with
  | O => out_of_fuel
  | S fuel' =>
      if p =? q then
        q' <- generate_prime inner (bits / 2) ;;
        regenerate_q fuel' inner bits p q'
      else ret q
  end.

(** [while gcd(e, phi) != 1: e = random.randint(2, phi - 1)] *)
Fixpoint choose_e (fuel : nat) (e phi : Z) : M Z :=
  match fuel with
  | O => out_of_fuel
  | S fuel' =>
      g <- lift (gcd e phi) ;;
      if negb (g =? 1) then
        e' <- randint 2 (phi - 1) ;;
        choose_e fuel' e' phi
      else ret e
  end.

(** Lines 83 to 88: the two primes the key is built from. *)
Definition keypair_primes (fuel : nat) (bits : Z) : M (Z * Z) :=
  emit Info [bits / 2] ;;
  p <- generate_prime fuel (bits / 2) ;;
  q <- generate_prime fuel (bits / 2) ;;
  q <- regenerate_q fuel fuel bits p q ;;
  ret (p, q).

(** Lines 90 to 130, from the two primes on. *)
Definition keypair_from (fuel : nat) (p q : Z) : M (key * key) :=
  let n := p * q in
  let phi := (p - 1) * (q - 1) in
  emit Success [] ;;
  emit Code [p; q] ;;
  emit Expander [] ;;
  emit Columns [2] ;;
  emit Markdown [] ;;
  emit Code [p] ;;
  emit Markdown [] ;;
  emit Code [q] ;;
  emit Info [n] ;;
  emit Info [phi] ;;
  emit Info [] ;;
  e <- choose_e fuel 65537 phi ;;
  emit Info [] ;;
  d <- lift (mod_inverse e phi) ;;
  emit Success [e; d] ;;
  emit Expander [] ;;
  emit Markdown [] ;;
  emit Code [e] ;;
  emit Markdown [] ;;
  emit Code [d] ;;
  emit Markdown [] ;;
  emit Code [n] ;;
  ret ((n, e), (n, d)).

Definition generate_keypair (fuel : nat) (bits : Z) : M (key * key) :=
  pq <- keypair_primes fuel bits ;;
  keypair_from fuel (fst pq) (snd pq).

(** ** [encrypt] and [decrypt] *)

Fixpoint encrypt_loop (n e : Z) (plaintext : str) (encrypted_msg_chars : list Z)
  : M (list Z) :=
  match plaintext with
  | [] => ret encrypted_msg_chars
  | c :: rest =>
      let char_as_int := ord c in
      if n <=? char_as_int then
        emit Error [char_as_int; char_as_int; n] ;;
        ret []
      else
        encrypted_char <- lift (pow3 char_as_int e n) ;;
        encrypt_loop n e rest (encrypted_msg_chars ++ [encrypted_char])
  end.

Definition encrypt (public_key : key) (plaintext : str) : M (list Z) :=
  let '(n, e) := public_key in
  encrypt_loop n e plaintext [].

Fixpoint decrypt_loop (n d : Z) (ciphertext : list Z) (decrypted_chars : str)
  : M str :=
  match ciphertext with
  | [] => ret decrypted_chars
  | char_code :: rest =>
      decrypted_char_int <- lift (pow3 char_code d n) ;;
      ch <- lift (chr decrypted_char_int) ;;
      decrypt_loop n d rest (decrypted_chars ++ [ch])
  end.

Definition decrypt (private_key : key) (ciphertext : list Z) : M str :=
  let '(n, d) := private_key in
  decrypt_loop n d ciphertext [].

(** ** Concrete worlds *)

(** A tape that serves the listed draws and then zeros. *)
Definition tape_of (l : list Z) : nat -> Z := fun i => nth i l 0.

Definition world_of (l : list Z) : world := World (tape_of l) 0 [].

(** ** Loop invariant of [mod_inverse]

    [a0] and [m0] are the arguments of the call; [a], [m], [x], [y] are the
    values of the four variables at the head of the loop.  [x] and [y] are
    the coefficients of [a0] in [a] and [m] modulo [m0]; they have opposite
    signs, and [a * |y| + m * |x|] stays equal to [m0]. *)
Definition ext_inv (a0 m0 a m x y : Z) : Prop :=
  0 <= a /\ 0 <= m /\ Z.gcd a m = 1 /\
  x * y <= 0 /\ a * Z.abs y + m * Z.abs x = m0 /\
  (m0 | x * a0 - a) /\ (m0 | y * a0 - m).

(** ** Concrete characters *)

Definition chr5 : char := Char 5 eq_refl.
Definition chr72 : char := Char 72 eq_refl.
Definition chr105 : char := Char 105 eq_refl.
Definition chr175 : char := Char 175 eq_refl.

(** ** Reference notions for [is_prime] *)

(** Primality by trial division, to compare [is_prime] with. *)
Definition trial_prime (n : Z) : bool :=
  (1 <? n) &&
  forallb (fun k => negb (n mod k =? 0))
          (map Z.of_nat (seq 2 (Z.to_nat n - 2))).

(** Whether one round of [is_prime] on [n], with [n - 1 = d * 2^s], lets
    the base [a] pass. *)
Definition round_passes (n s d a : Z) : bool :=
  match pow3 a d n with
  | Done x =>
      (x =? 1) || (x =? n - 1) ||
      match squarings (Z.to_nat (s - 1)) x n with
      | Done broke => broke
      | _ => false
      end
  | _ => false
  end.

(** The bases [2 .. n - 2] a round can draw. *)
Definition bases (n : Z) : list Z :=
  map (fun i => 2 + Z.of_nat i) (seq 0 (Z.to_nat (n - 3))).

(** * Proofs *)

(** ** The monad *)

Lemma bind_Done {A B} (c : M A) (k : A -> M B) w b w' :
  bind c k w = (Done b, w') ->
  exists a w1, c w = (Done a, w1) /\ k a w1 = (Done b, w').
Proof.
  unfold bind. destruct (c w) as [[a|e|] w1]; intros H; try discriminate.
  exists a, w1. split; [reflexivity | exact H].
Qed.

Lemma bind_run {A B} (c : M A) (k : A -> M B) w a w1 :
  c w = (Done a, w1) -> bind c k w = k a w1.
Proof. unfold bind. intros ->. reflexivity. Qed.

Lemma lift_Done {A} (r : outcome A) w a w' :
  lift r w = (Done a, w') -> r = Done a /\ w' = w.
Proof. unfold lift. intros H. inversion H. subst. split; reflexivity. Qed.

Lemma ret_Done {A} (x a : A) w w' :
  ret x w = (Done a, w') -> a = x /\ w' = w.
Proof. unfold ret. intros H. inversion H. split; reflexivity. Qed.

Tactic Notation "inv_bind" hyp(H) "as" ident(a) ident(w) ident(H1) :=
  apply bind_Done in H; destruct H as (a & w & H1 & H).

(** Step over a call whose result is not used, such as an [emit]. *)
Ltac skip_bind H :=
  let u := fresh "u" in
  let w := fresh "w" in
  let E := fresh "E" in
  apply bind_Done in H; destruct H as (u & w & E & H); clear E u.

(** Step over a call in a hypothesis and replay it in the goal. *)
Ltac step_bind H a w E :=
  apply bind_Done in H; destruct H as (a & w & E & H);
  rewrite (bind_run _ _ _ _ _ E).

(** ** The random source *)

Lemma randint_range lo hi w v w' :
  randint lo hi w = (Done v, w') -> lo <= v <= hi.
Proof.
  unfold randint. destruct (Z.ltb_spec hi lo) as [Hlt|Hle].
  - discriminate.
  - intros H. inv_bind H as r w1 Hd. apply ret_Done in H. destruct H as [-> _].
    pose proof (Z.mod_pos_bound r (hi - lo + 1)). lia.
Qed.

Lemma getrandbits_range k w v w' :
  getrandbits k w = (Done v, w') -> 0 <= k /\ 0 <= v < 2 ^ k.
Proof.
  unfold getrandbits. destruct (Z.ltb_spec k 0) as [Hlt|Hle].
  - discriminate.
  - intros H. inv_bind H as r w1 Hd. apply ret_Done in H. destruct H as [-> _].
    split; [exact Hle|]. apply Z.mod_pos_bound. apply Z.pow_pos_nonneg; lia.
Qed.

(** ** [is_prime] *)

Lemma is_prime_true_ge_2 n k w w' :
  is_prime n k w = (Done true, w') -> 2 <= n.
Proof.
  unfold is_prime. destruct (Z.leb_spec n 1) as [H1|H1]; simpl.
  - intros H. apply ret_Done in H. destruct H; discriminate.
  - intros _. lia.
Qed.

Lemma pow3_nonneg b e m :
  m <> 0 -> 0 <= e -> pow3 b e m = Done (b ^ e mod m).
Proof.
  intros Hm He. unfold pow3.
  destruct (Z.eqb_spec m 0); [contradiction|].
  destruct (Z.ltb_spec e 0); [lia|].
  rewrite Zpow_mod_correct by assumption. reflexivity.
Qed.

Lemma split_twos_total fuel s d :
  0 < d -> (Z.abs_nat d < fuel)%nat ->
  exists s' d', split_twos fuel s d = Done (s', d') /\ 0 < d'.
Proof.
  revert s d. induction fuel as [|fuel IH]; intros s d Hd Hf; [lia|].
  simpl. destruct (Z.eqb_spec (d mod 2) 0) as [He|Ho].
  - pose proof (Z.div_mod d 2 ltac:(lia)) as Hdm. apply IH; lia.
  - exists s, d. split; [reflexivity | exact Hd].
Qed.

Lemma squarings_total r x n :
  n <> 0 -> exists b, squarings r x n = Done b.
Proof.
  intros Hn. revert x. induction r as [|r IH]; intros x; simpl.
  - exists false. reflexivity.
  - rewrite pow3_nonneg by lia.
    destruct (x ^ 2 mod n =? n - 1); [exists true; reflexivity | apply IH].
Qed.

Lemma witness_rounds_total k n s d w :
  4 <= n -> 0 <= d ->
  exists b w', witness_rounds k n s d w = (Done b, w').
Proof.
  intros Hn Hd. revert w. induction k as [|k IH]; intros w; simpl.
  - exists true, w. reflexivity.
  - unfold randint. destruct (Z.ltb_spec (n - 2) 2) as [Hlt|_]; [lia|].
    cbv [bind draw ret lift]. rewrite pow3_nonneg by lia.
    destruct (_ || _); [apply IH|].
    destruct (squarings_total (Z.to_nat (s - 1))
                ((2 + rng w (cursor w) mod (n - 2 - 2 + 1)) ^ d mod n) n
                ltac:(lia)) as [b Hb].
    rewrite Hb. destruct b; [apply IH|]. eexists _, _. reflexivity.
Qed.

(** [is_prime] always answers: its loops end and nothing raises. *)
Lemma is_prime_total n k w : exists b w', is_prime n k w = (Done b, w').
Proof.
  unfold is_prime.
  destruct ((n <=? 1) || (n =? 4)) eqn:Hsmall; [exists false, w; reflexivity|].
  apply orb_false_iff in Hsmall. destruct Hsmall as [H1 _].
  apply Z.leb_gt in H1.
  destruct (Z.leb_spec n 3) as [H3|H3]; [exists true, w; reflexivity|].
  destruct (n mod 2 =? 0); [exists false, w; reflexivity|].
  destruct (split_twos_total (S (Z.abs_nat (n - 1))) 0 (n - 1))
    as (s & d & Hsd & Hd); [lia | lia |].
  rewrite Hsd. cbv [bind lift]. simpl fst. simpl snd.
  apply witness_rounds_total; lia.
Qed.

(** The answer for an odd composite depends on the witnesses drawn. *)
Lemma is_prime_25_depends_on_witnesses :
  fst (is_prime 25 5 (world_of [5; 5; 5; 5; 5])) = Done true /\
  fst (is_prime 25 5 (world_of [0; 0; 0; 0; 0])) = Done false.
Proof. split; vm_compute; reflexivity. Qed.

(** C5. [is_prime] answers [False] for every [n <= 1], for [4] and for
    every even [n] other than [2], and [True] for [2] and [3]; this holds
    for any number of rounds and any state of the random source, which is
    left untouched. *)
Theorem is_prime_short_circuits (n k : Z) (w : world) :
  (n <= 1 \/ n = 4 \/ (Z.even n = true /\ n <> 2) ->
     is_prime n k w = (Done false, w)) /\
  (n = 2 \/ n = 3 -> is_prime n k w = (Done true, w)).
Proof.
  unfold is_prime. split.
  - intros H.
    destruct (Z.leb_spec n 1) as [H1|H1]; [reflexivity|].
    destruct (Z.eqb_spec n 4) as [H4|H4]; [reflexivity|]. simpl.
    destruct H as [H|[H|[He H2]]]; try lia.
    destruct (Z.leb_spec n 3) as [H3|H3].
    + assert (n = 3) as -> by lia. discriminate.
    + rewrite Zeven_mod in He. rewrite He. reflexivity.
  - intros [->| ->]; reflexivity.
Qed.

Lemma is_prime_short_circuits_witness :
  is_prime 4 5 (world_of []) = (Done false, world_of [])
  /\ is_prime 3 5 (world_of []) = (Done true, world_of []).
Proof.
  split.
  - apply (proj1 (is_prime_short_circuits 4 5 _)). right. left. reflexivity.
  - apply (proj2 (is_prime_short_circuits 3 5 _)). right. reflexivity.
Defined.

(** ** [generate_prime] *)

Lemma lor_msb_lsb_bounds v bits :
  0 < bits -> 0 <= v < 2 ^ bits ->
  let p := Z.lor v (Z.lor (Z.shiftl 1 (bits - 1)) 1) in
  Z.odd p = true /\ Z.testbit p (bits - 1) = true /\
  2 ^ (bits - 1) <= p < 2 ^ bits.
Proof.
  intros Hb Hv p.
  assert (Hodd : Z.odd p = true).
  { unfold p. rewrite <- !Z.bit0_odd, !Z.lor_spec.
    change (Z.testbit 1 0) with true. rewrite !orb_true_r. reflexivity. }
  assert (Htop : Z.testbit p (bits - 1) = true).
  { unfold p. rewrite !Z.lor_spec, Z.shiftl_spec by lia.
    replace (bits - 1 - (bits - 1)) with 0 by lia.
    change (Z.testbit 1 0) with true. rewrite orb_true_r. reflexivity. }
  assert (Hnn : 0 <= p).
  { unfold p. rewrite !Z.lor_nonneg. rewrite Z.shiftl_nonneg. lia. }
  split; [exact Hodd|]. split; [exact Htop|]. split.
  - destruct (Z.lt_ge_cases p (2 ^ (bits - 1))) as [Hlt|Hge]; [|exact Hge].
    exfalso. assert (Hp0 : p <> 0).
    { intros E. rewrite E in Hodd. discriminate. }
    assert (Hlog : Z.log2 p < bits - 1) by (apply Z.log2_lt_pow2; lia).
    rewrite (Z.bits_above_log2 p (bits - 1)) in Htop by lia. discriminate.
  - assert (Hp0 : 0 < p).
    { destruct (Z.eq_dec p 0) as [E|E]; [rewrite E in Hodd; discriminate|lia]. }
    apply Z.log2_lt_pow2; [exact Hp0|].
    unfold p. rewrite !Z.log2_lor; try lia.
    + rewrite Z.shiftl_1_l, Z.log2_pow2 by lia.
      change (Z.log2 1) with 0.
      destruct (Z.eq_dec v 0) as [->|Hv0].
      * change (Z.log2 0) with 0. lia.
      * assert (Z.log2 v < bits) by (apply Z.log2_lt_pow2; lia). lia.
    + rewrite Z.shiftl_nonneg. lia.
    + rewrite Z.lor_nonneg, Z.shiftl_nonneg. lia.
Qed.

(** C4. For positive [bits], a value returned by [generate_prime] is odd,
    has its bit [bits - 1] set and lies in [2^(bits-1) .. 2^bits - 1], so
    it has exactly [bits] bits; and it is returned right after a call
    [is_prime(p)] (five rounds) answered [True]. *)
Theorem generate_prime_sound (fuel : nat) (bits : Z) (w w' : world) (p : Z) :
  0 < bits ->
  generate_prime fuel bits w = (Done p, w') ->
  Z.odd p = true /\
  Z.testbit p (bits - 1) = true /\
  2 ^ (bits - 1) <= p < 2 ^ bits /\
  exists w1, is_prime p 5 w1 = (Done true, w').
Proof.
  intros Hbits. revert w. induction fuel as [|fuel IH]; intros w H.
  - discriminate.
  - simpl in H.
    inv_bind H as v w1 Hv. inv_bind H as msb w2 Hmsb. inv_bind H as ok w3 Hok.
    apply getrandbits_range in Hv. destruct Hv as [_ Hv].
    apply lift_Done in Hmsb. destruct Hmsb as [Hshl ->].
    unfold shl in Hshl. destruct (Z.ltb_spec (bits - 1) 0); [lia|].
    injection Hshl as <-.
    destruct ok.
    + apply ret_Done in H. destruct H as [-> ->].
      pose proof (lor_msb_lsb_bounds v bits Hbits Hv) as (Ho & Ht & Hr).
      repeat split; try assumption; try lia.
      exists w1. exact Hok.
    + apply IH in H. exact H.
Qed.

Lemma generate_prime_sound_witness :
  Z.odd 29 = true /\ Z.testbit 29 4 = true /\ 2 ^ 4 <= 29 < 2 ^ 5 /\
  exists w1, is_prime 29 5 w1 = (Done true, World (tape_of [29]) 6 []).
Proof.
  apply (generate_prime_sound 1 5 (world_of [29])).
  - lia.
  - vm_compute. reflexivity.
Defined.

(** A finished search does not depend on the fuel it was given. *)
Lemma generate_prime_fuel_mono fuel fuel' bits w p w' :
  generate_prime fuel bits w = (Done p, w') -> (fuel <= fuel')%nat ->
  generate_prime fuel' bits w = (Done p, w').
Proof.
  revert fuel' w. induction fuel as [|fuel IH]; intros fuel' w H Hle;
    [discriminate|].
  destruct fuel' as [|fuel']; [lia|]. simpl in H |- *.
  step_bind H v w1 Hv. step_bind H msb w2 Hmsb. step_bind H ok w3 Hok.
  destruct ok; [exact H|]. apply IH; [exact H | lia].
Qed.

(** ** [gcd] *)

Lemma gcd_loop_total fuel a b :
  (Z.abs_nat b < fuel)%nat -> exists g, gcd_loop fuel a b = Done g.
Proof.
  revert a b. induction fuel as [|fuel IH]; intros a b Hf; [lia|].
  simpl. destruct (Z.eqb_spec b 0) as [->|Hb].
  - exists a. reflexivity.
  - apply IH.
    assert (Z.abs (a mod b) < Z.abs b).
    { destruct (Z.lt_ge_cases 0 b) as [Hp|Hn].
      - pose proof (Z.mod_pos_bound a b Hp). lia.
      - pose proof (Z.mod_neg_bound a b ltac:(lia)). lia. }
    lia.
Qed.

Lemma gcd_total a b : exists g, gcd a b = Done g.
Proof. apply gcd_loop_total. lia. Qed.

Lemma gcd_loop_nonneg fuel a b :
  0 <= a -> 0 <= b -> (Z.abs_nat b < fuel)%nat ->
  gcd_loop fuel a b = Done (Z.gcd a b).
Proof.
  revert a b. induction fuel as [|fuel IH]; intros a b Ha Hb Hf; [lia|].
  simpl. destruct (Z.eqb_spec b 0) as [->|Hb0].
  - rewrite Z.gcd_0_r_nonneg by exact Ha. reflexivity.
  - pose proof (Z.mod_pos_bound a b ltac:(lia)) as Hm.
    rewrite IH by lia.
    rewrite Z.gcd_mod_r. rewrite (Z.gcd_comm b a). reflexivity.
Qed.

Lemma gcd_nonneg a b : 0 <= a -> 0 <= b -> gcd a b = Done (Z.gcd a b).
Proof. intros Ha Hb. apply gcd_loop_nonneg; lia. Qed.

Example gcd_48_18 : gcd 48 18 = Done 6.
Proof. reflexivity. Qed.

(** ** [mod_inverse] *)

Lemma mod_inverse_loop_total fuel a m x y :
  (Z.abs_nat m < fuel)%nat -> mod_inverse_loop fuel a m x y <> OutOfFuel.
Proof.
  revert a m x y. induction fuel as [|fuel IH]; intros a m x y Hf; [lia|].
  simpl. destruct (1 <? a); [|discriminate].
  destruct (Z.eqb_spec m 0) as [->|Hm]; [discriminate|].
  apply IH.
  assert (Z.abs (a mod m) < Z.abs m).
  { destruct (Z.lt_ge_cases 0 m) as [Hp|Hn].
    - pose proof (Z.mod_pos_bound a m Hp). lia.
    - pose proof (Z.mod_neg_bound a m ltac:(lia)). lia. }
  lia.
Qed.

Lemma mod_inverse_total a m : mod_inverse a m <> OutOfFuel.
Proof.
  unfold mod_inverse. destruct (m =? 1); [discriminate|].
  pose proof (mod_inverse_loop_total (S (Z.abs_nat m)) a m 1 0 ltac:(lia)).
  destruct (mod_inverse_loop _ a m 1 0); congruence.
Qed.

Lemma opposite_signs_abs x y q :
  x * y <= 0 -> 0 <= q ->
  y * (x - q * y) <= 0 /\ Z.abs (x - q * y) = Z.abs x + q * Z.abs y.
Proof.
  intros Hs Hq.
  pose proof (Z.mul_nonneg_nonneg q (y * y) Hq (Z.square_nonneg y)) as Hqyy.
  split.
  - replace (y * (x - q * y)) with (x * y - q * (y * y)) by ring. lia.
  - destruct (Z.lt_trichotomy y 0) as [Hy|[->|Hy]].
    + assert (0 <= x) by nia. assert (0 <= q * - y) by nia.
      rewrite (Z.abs_neq y), (Z.abs_eq x), Z.abs_eq; lia.
    + rewrite Z.mul_0_r, Z.sub_0_r. simpl. lia.
    + assert (x <= 0) by nia. assert (0 <= q * y) by nia.
      rewrite (Z.abs_eq y), (Z.abs_neq x), Z.abs_neq; lia.
Qed.

Section ExtendedEuclid.

Variables a0 m0 : Z.
Hypothesis m0_gt_1 : 1 < m0.

Lemma ext_inv_init : 0 < a0 -> Z.gcd a0 m0 = 1 -> ext_inv a0 m0 a0 m0 1 0.
Proof.
  intros Ha Hg. unfold ext_inv. repeat split; try lia.
  - exists 0. lia.
  - exists (-1). lia.
Qed.

Lemma ext_inv_step a m x y :
  ext_inv a0 m0 a m x y -> 1 < a ->
  0 < m /\ ext_inv a0 m0 m (a mod m) y (x - a / m * y) /\ 2 * Z.abs y <= m0.
Proof.
  intros (Ha & Hm & Hg & Hs & Hsum & [kx Hx] & [ky Hy]) Ha1.
  assert (Hm0 : 0 < m).
  { destruct (Z.eq_dec m 0) as [->|]; [|lia].
    rewrite Z.gcd_0_r_nonneg in Hg by lia. lia. }
  pose proof (Z.mod_pos_bound a m Hm0) as Hr.
  pose proof (Z.div_mod a m ltac:(lia)) as Hdm.
  assert (Hq : 0 <= a / m) by (apply Z.div_pos; lia).
  assert (Hgcd : Z.gcd m (a mod m) = 1).
  { rewrite Z.gcd_mod_r, Z.gcd_comm. exact Hg. }
  set (q := a / m) in *. set (r := a mod m) in *. clearbody q r.
  pose proof (opposite_signs_abs x y q Hs Hq) as [Hs' Habs].
  pose proof (Z.abs_nonneg x) as HX. pose proof (Z.abs_nonneg y) as HY.
  split; [exact Hm0|]. split.
  - unfold ext_inv. repeat (split; [first [lia | exact Hgcd | exact Hs']|]).
    split; [|split].
    + rewrite Habs. rewrite Hdm in Hsum. lia.
    + exists ky. exact Hy.
    + exists (kx - q * ky).
      replace ((x - q * y) * a0 - r) with ((x * a0 - a) - q * (y * a0 - m))
        by (rewrite Hdm; ring).
      rewrite Hx, Hy. ring.
  - pose proof (Z.mul_le_mono_nonneg_r 2 a (Z.abs y) HY ltac:(lia)).
    pose proof (Z.mul_nonneg_nonneg m (Z.abs x) Hm HX). lia.
Qed.

Lemma mod_inverse_loop_spec fuel a m x y :
  ext_inv a0 m0 a m x y -> 1 <= a -> Z.abs x < m0 ->
  (Z.abs_nat m < fuel)%nat ->
  exists x', mod_inverse_loop fuel a m x y = Done x' /\
             (m0 | x' * a0 - 1) /\ Z.abs x' < m0.
Proof.
  revert a m x y. induction fuel as [|fuel IH]; intros a m x y Hinv Ha Hx Hf.
  - lia.
  - simpl. destruct (Z.ltb_spec 1 a) as [Ha1|Ha1].
    + destruct (ext_inv_step a m x y Hinv Ha1) as (Hm & Hinv' & Hy).
      destruct (Z.eqb_spec m 0) as [->|_]; [lia|].
      apply IH; try assumption; try lia.
      pose proof (Z.mod_pos_bound a m Hm). lia.
    + assert (a = 1) as -> by lia.
      exists x. split; [reflexivity|]. split; [|exact Hx].
      destruct Hinv as (_ & _ & _ & _ & _ & Hc & _). exact Hc.
Qed.

End ExtendedEuclid.

(** What [mod_inverse] returns on coprime positive arguments. *)
Lemma mod_inverse_spec a m :
  0 < a -> 0 < m -> Z.gcd a m = 1 ->
  exists x, mod_inverse a m = Done x /\ 0 <= x < m /\ (a * x) mod m = 1 mod m.
Proof.
  intros Ha Hm Hg. unfold mod_inverse.
  destruct (Z.eqb_spec m 1) as [->|Hm1].
  - exists 0. split; [reflexivity|]. split; [lia|]. rewrite !Z.mod_1_r. reflexivity.
  - assert (Hm2 : 1 < m) by lia.
    destruct (mod_inverse_loop_spec a m Hm2 (S (Z.abs_nat m)) a m 1 0)
      as (x & Hrun & [k Hk] & Hb).
    + apply ext_inv_init; assumption.
    + lia.
    + lia.
    + lia.
    + rewrite Hrun. eexists. split; [reflexivity|].
      destruct (Z.ltb_spec x 0) as [Hneg|Hpos].
      * split; [lia|].
        replace (a * (x + m)) with (1 + (k + a) * m) by lia.
        rewrite Z.mod_add by lia. reflexivity.
      * split; [lia|].
        replace (a * x) with (1 + k * m) by lia.
        rewrite Z.mod_add by lia. reflexivity.
Qed.

(** C6 (amended). For positive [a] and [m > 1] with [gcd(a, m) == 1],
    [(a * mod_inverse(a, m)) % m == 1]; [mod_inverse(a, 1)] is [0] for any
    [a]; and [mod_inverse(3, 11) == 4]. *)
Theorem mod_inverse_correct (a m : Z) :
  0 < a -> 1 < m -> gcd a m = Done 1 ->
  (exists x, mod_inverse a m = Done x /\ (a * x) mod m = 1) /\
  (forall b, mod_inverse b 1 = Done 0) /\
  mod_inverse 3 11 = Done 4.
Proof.
  intros Ha Hm Hg. rewrite gcd_nonneg in Hg by lia. injection Hg as Hg.
  split; [|split; reflexivity].
  destruct (mod_inverse_spec a m Ha ltac:(lia) Hg) as (x & Hx & _ & Hmod).
  exists x. split; [exact Hx|]. rewrite Hmod. apply Z.mod_1_l. exact Hm.
Qed.

Lemma mod_inverse_correct_witness :
  (exists x, mod_inverse 65537 24 = Done x /\ (65537 * x) mod 24 = 1) /\
  (forall b, mod_inverse b 1 = Done 0) /\
  mod_inverse 3 11 = Done 4.
Proof.
  apply (mod_inverse_correct 65537 24).
  - lia.
  - lia.
  - vm_compute. reflexivity.
Defined.

(** C6 as stated fails at [m = 1]: [gcd(a, 1) == 1] for every [a], the
    function returns [0], and [(a * 0) % 1] is [0], not [1]. *)
Lemma mod_inverse_modulus_one_counterexample :
  0 < 5 /\ 0 < 1 /\ gcd 5 1 = Done 1 /\
  mod_inverse 5 1 = Done 0 /\ (5 * 0) mod 1 <> 1.
Proof.
  repeat split; try reflexivity. vm_compute. discriminate.
Qed.

(** C10. For positive coprime [a] and [m], [mod_inverse(a, m)] lies in
    [0 .. m - 1]: when [m > 1], the coefficient the loop ends with is
    strictly between [-m] and [m], so adding [m] once to a negative one is
    enough. *)
Theorem mod_inverse_range (a m : Z) :
  0 < a -> 0 < m -> gcd a m = Done 1 ->
  (exists x, mod_inverse a m = Done x /\ 0 <= x < m) /\
  (1 < m ->
   exists raw, mod_inverse_loop (S (Z.abs_nat m)) a m 1 0 = Done raw /\
               - m < raw < m /\
               mod_inverse a m = Done (if raw <? 0 then raw + m else raw)).
Proof.
  intros Ha Hm Hg. rewrite gcd_nonneg in Hg by lia. injection Hg as Hg.
  split.
  - destruct (mod_inverse_spec a m Ha Hm Hg) as (x & Hx & Hr & _).
    exists x. split; assumption.
  - intros Hm1.
    destruct (mod_inverse_loop_spec a m Hm1 (S (Z.abs_nat m)) a m 1 0)
      as (raw & Hrun & _ & Hb).
    + apply ext_inv_init; assumption.
    + lia.
    + lia.
    + lia.
    + exists raw. split; [exact Hrun|]. split; [lia|].
      unfold mod_inverse. destruct (Z.eqb_spec m 1); [lia|].
      rewrite Hrun. reflexivity.
Qed.

Lemma mod_inverse_range_witness :
  (exists x, mod_inverse 65537 24 = Done x /\ 0 <= x < 24) /\
  (1 < 24 ->
   exists raw, mod_inverse_loop (S (Z.abs_nat 24)) 65537 24 1 0 = Done raw /\
               - 24 < raw < 24 /\
               mod_inverse 65537 24
               = Done (if raw <? 0 then raw + 24 else raw)).
Proof.
  apply (mod_inverse_range 65537 24).
  - lia.
  - lia.
  - vm_compute. reflexivity.
Defined.

(** ** Characters and [pow] *)

Lemma char_ext (c1 c2 : char) : ord c1 = ord c2 -> c1 = c2.
Proof.
  destruct c1 as [z1 H1], c2 as [z2 H2]. simpl. intros <-.
  f_equal. apply UIP_dec. apply bool_dec.
Qed.

Lemma ord_range (c : char) : 0 <= ord c < 1114112.
Proof.
  destruct c as [z H]. simpl. unfold is_codepoint in H.
  apply andb_true_iff in H. destruct H as [H1 H2].
  apply Z.leb_le in H1. apply Z.ltb_lt in H2. lia.
Qed.

Lemma chr_ord (c : char) : chr (ord c) = Done c.
Proof.
  unfold chr. destruct (bool_dec (is_codepoint (ord c)) true) as [H|H].
  - f_equal. apply char_ext. reflexivity.
  - exfalso. apply H. apply ord_ok.
Qed.

Lemma chr_in_range z :
  0 <= z < 1114112 -> exists c, chr z = Done c /\ ord c = z.
Proof.
  intros Hz. unfold chr.
  destruct (bool_dec (is_codepoint z) true) as [H|H].
  - eexists. split; reflexivity.
  - exfalso. apply H. unfold is_codepoint.
    apply andb_true_iff. split; [apply Z.leb_le | apply Z.ltb_lt]; lia.
Qed.

Lemma chr_out_of_range z :
  1114112 <= z ->
  chr z = Raise (if 2147483647 <? z then OverflowError else ValueError).
Proof.
  intros Hz. unfold chr.
  destruct (bool_dec (is_codepoint z) true) as [H|H].
  - exfalso. unfold is_codepoint in H. apply andb_true_iff in H.
    destruct H as [_ H]. apply Z.ltb_lt in H. lia.
  - destruct (Z.ltb_spec z (- 2147483648)); [lia|]. simpl.
    destruct (2147483647 <? z); reflexivity.
Qed.

(** ** [encrypt] *)

Lemma emit_bind {B} k args (c : M B) w :
  (emit k args ;; c) w = c (World (rng w) (cursor w) (ui w ++ [UiCall k args])).
Proof. reflexivity. Qed.

Lemma lift_bind {A B} (a : A) (k : A -> M B) w :
  (x <- lift (Done a) ;; k x) w = k a w.
Proof. reflexivity. Qed.

(** A run of the loop that meets a character too large for the modulus. *)
Lemma encrypt_loop_rejects n e plaintext acc w :
  0 <= e -> Exists (fun c => n <= ord c) plaintext ->
  exists c, In c plaintext /\ n <= ord c /\
    encrypt_loop n e plaintext acc w
    = (Done [], World (rng w) (cursor w)
                  (ui w ++ [UiCall Error [ord c; ord c; n]])).
Proof.
  intros He Hex. revert acc.
  induction plaintext as [|c rest IH]; intros acc.
  - inversion Hex.
  - simpl. destruct (Z.leb_spec n (ord c)) as [Hle|Hlt].
    + exists c. split; [left; reflexivity|]. split; [exact Hle|]. reflexivity.
    + assert (Hrest : Exists (fun c => n <= ord c) rest).
      { inversion Hex; subst; [lia|assumption]. }
      pose proof (ord_range c) as Hc.
      rewrite pow3_nonneg by lia. rewrite lift_bind.
      destruct (IH Hrest (acc ++ [ord c ^ e mod n])) as (c' & Hin & Hbig & Hrun).
      exists c'. split; [right; exact Hin|]. split; [exact Hbig|]. exact Hrun.
Qed.

(** A run of the loop on characters that all fit the modulus. *)
Lemma encrypt_loop_accepts n e plaintext acc w :
  0 <= e -> Forall (fun c => ord c < n) plaintext ->
  encrypt_loop n e plaintext acc w
  = (Done (acc ++ map (fun c => ord c ^ e mod n) plaintext), w).
Proof.
  intros He Hall. revert acc.
  induction plaintext as [|c rest IH]; intros acc.
  - simpl. rewrite app_nil_r. reflexivity.
  - inversion Hall as [|? ? Hc Hrest]; subst. simpl.
    destruct (Z.leb_spec n (ord c)) as [Hle|Hlt]; [lia|].
    pose proof (ord_range c) as Hr.
    rewrite pow3_nonneg by lia. rewrite lift_bind.
    rewrite IH by assumption. rewrite <- app_assoc. reflexivity.
Qed.

(** What any run of the loop does to the world, and that its result does
    not depend on the world. *)
Lemma encrypt_loop_effects n e plaintext acc w :
  let r := encrypt_loop n e plaintext acc w in
  rng (snd r) = rng w /\ cursor (snd r) = cursor w /\
  (snd r = w \/
   exists c, In c plaintext /\ n <= ord c /\ fst r = Done [] /\
             ui (snd r) = ui w ++ [UiCall Error [ord c; ord c; n]]) /\
  forall w2, fst (encrypt_loop n e plaintext acc w2) = fst r.
Proof.
  revert acc. induction plaintext as [|c rest IH]; intros acc; simpl.
  - repeat split; auto.
  - destruct (Z.leb_spec n (ord c)) as [Hle|Hlt].
    + simpl. repeat split; auto.
      right. exists c. repeat split; auto.
    + unfold bind at 1 3, lift. destruct (pow3 (ord c) e n) as [x|ex|]; simpl.
      * destruct (IH (acc ++ [x])) as (H1 & H2 & H3 & H4).
        repeat split; auto.
        destruct H3 as [H3|(c' & Hin & Hbig & Hr & Hui)]; [left; exact H3|].
        right. exists c'. repeat split; auto.
      * repeat split; auto.
      * repeat split; auto.
Qed.

(** C3. With a non-negative exponent, encrypting a text that holds a
    character whose code point is at least [n] returns the empty list,
    whatever came before that character, after one [st.error] call that
    names the character and the modulus. *)
Theorem encrypt_rejects_large_char (n e : Z) (plaintext : str) (w : world) :
  0 <= e ->
  Exists (fun c => n <= ord c) plaintext ->
  exists c, In c plaintext /\ n <= ord c /\
    encrypt (n, e) plaintext w
    = (Done [], World (rng w) (cursor w)
                  (ui w ++ [UiCall Error [ord c; ord c; n]])).
Proof.
  intros He Hex. unfold encrypt. apply encrypt_loop_rejects; assumption.
Qed.

Lemma encrypt_rejects_large_char_witness :
  exists c, In c [chr72; chr105; chr175; chr5] /\ 119 <= ord c /\
    encrypt (119, 5) [chr72; chr105; chr175; chr5] (world_of [])
    = (Done [], World (tape_of []) 0 [UiCall Error [ord c; ord c; 119]]).
Proof.
  apply (encrypt_rejects_large_char 119 5 [chr72; chr105; chr175; chr5]
           (world_of [])).
  - lia.
  - apply Exists_cons_tl. apply Exists_cons_tl. apply Exists_cons_hd.
    simpl. lia.
Defined.

(** C9. On the empty string [encrypt] returns the empty list and does
    nothing else; a call that fails on a character too large for the
    modulus returns the same empty list, so the two results are equal. *)
Theorem encrypt_empty_same_as_failure (n e : Z) (w : world) :
  encrypt (n, e) [] w = (Done [], w) /\
  forall plaintext w1,
    0 <= e -> Exists (fun c => n <= ord c) plaintext ->
    fst (encrypt (n, e) plaintext w1) = fst (encrypt (n, e) [] w).
Proof.
  split; [reflexivity|].
  intros plaintext w1 He Hex. unfold encrypt.
  destruct (encrypt_loop_rejects n e plaintext [] w1 He Hex)
    as (c & _ & _ & Hrun).
  rewrite Hrun. reflexivity.
Qed.

Lemma encrypt_empty_same_as_failure_witness :
  fst (encrypt (119, 5) [chr72; chr175] (world_of []))
  = fst (encrypt (119, 5) [] (world_of [])).
Proof.
  apply (proj2 (encrypt_empty_same_as_failure 119 5 (world_of []))).
  - lia.
  - apply Exists_cons_tl. apply Exists_cons_hd. simpl. lia.
Defined.

(** ** [decrypt] *)

(** A run of the loop on blocks that all decode below [0x110000]. *)
Lemma decrypt_loop_accepts n d ciphertext acc w :
  0 < n -> 0 <= d ->
  Forall (fun c => c ^ d mod n < 1114112) ciphertext ->
  exists s, decrypt_loop n d ciphertext acc w = (Done (acc ++ s), w) /\
            map ord s = map (fun c => c ^ d mod n) ciphertext.
Proof.
  intros Hn Hd Hall. revert acc.
  induction ciphertext as [|c rest IH]; intros acc.
  - exists []. simpl. rewrite app_nil_r. split; reflexivity.
  - inversion Hall as [|? ? Hc Hrest]; subst. simpl.
    rewrite pow3_nonneg by lia. rewrite lift_bind.
    pose proof (Z.mod_pos_bound (c ^ d) n Hn) as Hb.
    destruct (chr_in_range (c ^ d mod n) ltac:(lia)) as (ch & Hch & Hord).
    rewrite Hch, lift_bind.
    destruct (IH Hrest (acc ++ [ch])) as (s & Hrun & Hmap).
    exists (ch :: s). split.
    + rewrite Hrun. rewrite <- app_assoc. reflexivity.
    + simpl. rewrite Hord, Hmap. reflexivity.
Qed.

(** A run of the loop that meets a block decoding to [0x110000] or more. *)
Lemma decrypt_loop_rejects n d ciphertext acc w :
  0 < n -> 0 <= d ->
  Exists (fun c => 1114112 <= c ^ d mod n) ciphertext ->
  exists ex, decrypt_loop n d ciphertext acc w = (Raise ex, w) /\
             (ex = ValueError \/ ex = OverflowError).
Proof.
  intros Hn Hd Hex. revert acc.
  induction ciphertext as [|c rest IH]; intros acc.
  - inversion Hex.
  - simpl. rewrite pow3_nonneg by lia. rewrite lift_bind.
    destruct (Z.le_gt_cases 1114112 (c ^ d mod n)) as [Hbig|Hsmall].
    + rewrite chr_out_of_range by exact Hbig. eexists. split; [reflexivity|].
      destruct (2147483647 <? c ^ d mod n); [right | left]; reflexivity.
    + pose proof (Z.mod_pos_bound (c ^ d) n Hn) as Hb.
      destruct (chr_in_range (c ^ d mod n) ltac:(lia)) as (ch & Hch & _).
      rewrite Hch, lift_bind. apply IH.
      inversion Hex; subst; [lia|assumption].
Qed.

Lemma decrypt_loop_effects n d ciphertext acc w :
  snd (decrypt_loop n d ciphertext acc w) = w /\
  forall w2, fst (decrypt_loop n d ciphertext acc w2)
             = fst (decrypt_loop n d ciphertext acc w).
Proof.
  revert acc. induction ciphertext as [|c rest IH]; intros acc; simpl.
  - split; auto.
  - unfold bind at 1 3 5, lift at 1 3 5.
    destruct (pow3 c d n) as [x|ex|]; simpl; try (split; auto; fail).
    unfold bind at 1 2 3, lift at 1 2 3.
    destruct (chr x) as [ch|ex|]; simpl; try (split; auto; fail).
    apply IH.
Qed.

(** C7 (amended). [decrypt] checks no bounds itself.  For a key with
    [n > 0] and [d >= 0] it returns a string as long as the ciphertext,
    whose character at each position is [chr(c ** d % n)], when every
    [c ** d % n] is below [0x110000], which is so whenever
    [n <= 0x110000]; when some block decodes to [0x110000] or more, [chr]
    raises ([ValueError], or [OverflowError] past the range of a C [int])
    and so does the call. *)
Theorem decrypt_unchecked (n d : Z) (ciphertext : list Z) (w : world) :
  0 < n -> 0 <= d ->
  (Forall (fun c => c ^ d mod n < 1114112) ciphertext ->
   exists s, decrypt (n, d) ciphertext w = (Done s, w) /\
             length s = length ciphertext /\
             map ord s = map (fun c => c ^ d mod n) ciphertext) /\
  (n <= 1114112 -> Forall (fun c => c ^ d mod n < 1114112) ciphertext) /\
  (Exists (fun c => 1114112 <= c ^ d mod n) ciphertext ->
   exists ex, decrypt (n, d) ciphertext w = (Raise ex, w) /\
              (ex = ValueError \/ ex = OverflowError)).
Proof.
  intros Hn Hd. split; [|split].
  - intros Hall. unfold decrypt.
    destruct (decrypt_loop_accepts n d ciphertext [] w Hn Hd Hall)
      as (s & Hrun & Hmap).
    exists s. split; [exact Hrun|]. split; [|exact Hmap].
    rewrite <- (length_map ord s), Hmap, length_map. reflexivity.
  - intros Hsmall. apply Forall_forall. intros c _.
    pose proof (Z.mod_pos_bound (c ^ d) n Hn). lia.
  - intros Hex. unfold decrypt. apply decrypt_loop_rejects; assumption.
Qed.

Lemma decrypt_unchecked_witness :
  exists s, decrypt (119, 77) [999; 0; 118] (world_of [])
            = (Done s, world_of []) /\
            length s = length [999; 0; 118] /\
            map ord s = map (fun c => c ^ 77 mod 119) [999; 0; 118].
Proof.
  destruct (decrypt_unchecked 119 77 [999; 0; 118] (world_of []))
    as (Hok & Hsmall & _); [lia | lia |].
  apply Hok. apply Hsmall. lia.
Defined.

(** C7 as stated fails: with the key [(2000000, 1)] the single
    non-negative block [1500000] decodes to [1500000], which is no code
    point, and the call raises [ValueError] instead of returning a string. *)
Lemma decrypt_raises_counterexample :
  Forall (fun c => 0 <= c) [1500000] /\
  decrypt (2000000, 1) [1500000] (world_of [])
  = (Raise ValueError, world_of []).
Proof.
  split.
  - constructor; [lia|constructor].
  - vm_compute. reflexivity.
Qed.

(** C8. The result of [encrypt] and of [decrypt] is the same in every
    world.  [encrypt] draws nothing from the random source and either
    leaves the world as it was or, on a character too large for the
    modulus, adds the one [st.error] call and returns the empty list;
    [decrypt] leaves the world as it was. *)
Theorem encrypt_decrypt_pure
    (pk sk : key) (plaintext : str) (ciphertext : list Z) (w w2 : world) :
  fst (encrypt pk plaintext w2) = fst (encrypt pk plaintext w) /\
  rng (snd (encrypt pk plaintext w)) = rng w /\
  cursor (snd (encrypt pk plaintext w)) = cursor w /\
  (snd (encrypt pk plaintext w) = w \/
   exists c, In c plaintext /\ fst pk <= ord c /\
             fst (encrypt pk plaintext w) = Done [] /\
             ui (snd (encrypt pk plaintext w))
             = ui w ++ [UiCall Error [ord c; ord c; fst pk]]) /\
  fst (decrypt sk ciphertext w2) = fst (decrypt sk ciphertext w) /\
  snd (decrypt sk ciphertext w) = w.
Proof.
  destruct pk as [n e], sk as [n' d]. unfold encrypt, decrypt. simpl fst.
  destruct (encrypt_loop_effects n e plaintext [] w) as (H1 & H2 & H3 & H4).
  destruct (decrypt_loop_effects n' d ciphertext [] w) as (H5 & H6).
  repeat split; auto.
Qed.

(** ** [generate_keypair] *)

Lemma generate_prime_odd_ge_3 fuel bits w p w' :
  generate_prime fuel bits w = (Done p, w') -> Z.odd p = true /\ 3 <= p.
Proof.
  revert w. induction fuel as [|fuel IH]; intros w H; [discriminate|].
  simpl in H.
  inv_bind H as v w1 Hv. inv_bind H as msb w2 Hmsb. inv_bind H as ok w3 Hok.
  destruct ok; [|apply IH in H; exact H].
  apply ret_Done in H. destruct H as [-> _].
  assert (Hodd : Z.odd (Z.lor v (Z.lor msb 1)) = true).
  { rewrite <- !Z.bit0_odd, !Z.lor_spec.
    change (Z.testbit 1 0) with true. rewrite !orb_true_r. reflexivity. }
  split; [exact Hodd|].
  apply is_prime_true_ge_2 in Hok.
  destruct (Z.eq_dec (Z.lor v (Z.lor msb 1)) 2) as [E|E]; [|lia].
  rewrite E in Hodd. discriminate.
Qed.

Lemma regenerate_q_spec fuel inner bits p q w q' w' :
  regenerate_q fuel inner bits p q w = (Done q', w') ->
  Z.odd q = true /\ 3 <= q ->
  p <> q' /\ Z.odd q' = true /\ 3 <= q'.
Proof.
  revert q w. induction fuel as [|fuel IH]; intros q w H Hq; [discriminate|].
  simpl in H. destruct (Z.eqb_spec p q) as [Heq|Hne].
  - inv_bind H as q1 w1 Hgen.
    apply generate_prime_odd_ge_3 in Hgen. apply IH in H; assumption.
  - apply ret_Done in H. destruct H as [-> _].
    split; [exact Hne | exact Hq].
Qed.

Lemma keypair_primes_spec fuel bits w p q w' :
  keypair_primes fuel bits w = (Done (p, q), w') ->
  p <> q /\ 3 <= p /\ 3 <= q.
Proof.
  unfold keypair_primes. rewrite emit_bind. intros H.
  inv_bind H as p1 w1 Hp. inv_bind H as q1 w2 Hq. inv_bind H as q2 w3 Hq2.
  apply ret_Done in H. destruct H as [H _]. injection H as <- <-.
  apply generate_prime_odd_ge_3 in Hp, Hq.
  apply regenerate_q_spec in Hq2; [|exact Hq]. lia.
Qed.

Lemma choose_e_spec fuel e phi w e' w' :
  choose_e fuel e phi w = (Done e', w') ->
  0 < e -> 0 <= phi ->
  0 < e' /\ gcd e' phi = Done 1.
Proof.
  revert e w. induction fuel as [|fuel IH]; intros e w H He Hphi;
    [discriminate|].
  simpl in H. inv_bind H as g w1 Hg.
  apply lift_Done in Hg. destruct Hg as [Hg ->].
  destruct (Z.eqb_spec g 1) as [->|Hne]; simpl in H.
  - apply ret_Done in H. destruct H as [-> _]. split; assumption.
  - inv_bind H as e1 w2 Hr. apply randint_range in Hr.
    apply IH in H; [exact H | lia | exact Hphi].
Qed.

Lemma keypair_from_spec fuel p q w pub priv w' :
  keypair_from fuel p q w = (Done (pub, priv), w') ->
  exists e d w1 w2,
    choose_e fuel 65537 ((p - 1) * (q - 1)) w1 = (Done e, w2) /\
    mod_inverse e ((p - 1) * (q - 1)) = Done d /\
    pub = (p * q, e) /\ priv = (p * q, d).
Proof.
  intros H. unfold keypair_from in H.
  do 11 skip_bind H. inv_bind H as e wa He.
  skip_bind H. inv_bind H as d wb Hd.
  do 8 skip_bind H.
  apply ret_Done in H. destruct H as [H _]. injection H as -> ->.
  apply lift_Done in Hd. destruct Hd as [Hd _].
  eexists e, d, _, wa. repeat split; eassumption.
Qed.

(** What a finished run of [generate_keypair] has computed. *)
Lemma generate_keypair_spec fuel bits w pub priv w' :
  generate_keypair fuel bits w = (Done (pub, priv), w') ->
  exists p q w1 e d,
    keypair_primes fuel bits w = (Done (p, q), w1) /\
    pub = (p * q, e) /\ priv = (p * q, d) /\
    p <> q /\ 3 <= p /\ 3 <= q /\
    0 < e /\ gcd e ((p - 1) * (q - 1)) = Done 1 /\
    mod_inverse e ((p - 1) * (q - 1)) = Done d /\
    0 <= d /\ (e * d) mod ((p - 1) * (q - 1)) = 1.
Proof.
  unfold generate_keypair. intros H. inv_bind H as pq w1 Hpq.
  destruct pq as [p q]. simpl fst in H. simpl snd in H.
  pose proof (keypair_primes_spec _ _ _ _ _ _ Hpq) as (Hne & Hp & Hq).
  apply keypair_from_spec in H.
  destruct H as (e & d & w2 & w3 & He & Hd & -> & ->).
  exists p, q, w1, e, d.
  assert (Hphi : 1 < (p - 1) * (q - 1)).
  { pose proof (Z.mul_le_mono_nonneg 2 (p - 1) 2 (q - 1)
                  ltac:(lia) ltac:(lia) ltac:(lia) ltac:(lia)). lia. }
  set (phi := (p - 1) * (q - 1)) in *.
  apply choose_e_spec in He; [|lia|lia]. destruct He as [He Hg].
  pose proof Hg as Hg'. rewrite gcd_nonneg in Hg' by lia. injection Hg' as Hg'.
  assert (Hphi0 : 0 < phi) by lia.
  destruct (mod_inverse_spec e phi He Hphi0 Hg') as (x & Hx & Hr & Hmod).
  rewrite Hx in Hd. injection Hd as <-.
  rewrite Z.mod_1_l in Hmod by exact Hphi.
  repeat (split; [first [assumption | reflexivity | lia]|]). exact Hmod.
Qed.

(** C2. A key pair returned by [generate_keypair] is built from the two
    values [p] and [q] of its prime search: both keys carry [n = p * q],
    [p] and [q] differ, [gcd(e, (p-1)*(q-1)) == 1] and
    [(e * d) % ((p-1)*(q-1)) == 1]. *)
Theorem generate_keypair_consistent
    (fuel : nat) (bits : Z) (w w' : world) (n e n' d : Z) :
  generate_keypair fuel bits w = (Done ((n, e), (n', d)), w') ->
  exists p q w1,
    keypair_primes fuel bits w = (Done (p, q), w1) /\
    n = p * q /\ n' = n /\ p <> q /\
    gcd e ((p - 1) * (q - 1)) = Done 1 /\
    (e * d) mod ((p - 1) * (q - 1)) = 1.
Proof.
  intros H. apply generate_keypair_spec in H.
  destruct H as (p & q & w1 & e1 & d1 & Hpq & Hpub & Hpriv & Hne & _ & _ &
                 _ & Hg & _ & _ & Hed).
  injection Hpub as -> ->. injection Hpriv as -> ->.
  exists p, q, w1. repeat split; assumption.
Qed.

Lemma generate_keypair_consistent_witness :
  exists p q w1,
    keypair_primes 3 6 (world_of [5; 0; 0; 0; 0; 0; 7]) = (Done (p, q), w1) /\
    35 = p * q /\ 35 = 35 /\ p <> q /\
    gcd 65537 ((p - 1) * (q - 1)) = Done 1 /\
    (65537 * 17) mod ((p - 1) * (q - 1)) = 1.
Proof.
  eapply (generate_keypair_consistent 3 6 (world_of [5; 0; 0; 0; 0; 0; 7])).
  vm_compute. reflexivity.
Defined.

(** ** Correctness of RSA on two distinct primes *)

Lemma pow_cycle_prime p m k :
  Z.prime p -> 0 <= k -> m ^ (1 + (p - 1) * k) mod p = m mod p.
Proof.
  intros Hp Hk. pose proof (Z.prime_ge_2 p Hp) as Hp2.
  rewrite Z.pow_add_r, Z.pow_1_r, Z.pow_mul_r by nia.
  destruct (Z.eq_dec (m mod p) 0) as [H0|H0].
  - rewrite <- Z.mul_mod_idemp_l by lia. rewrite H0. rewrite Z.mul_0_l.
    apply Z.mod_0_l. lia.
  - rewrite <- Z.mul_mod_idemp_r by lia.
    rewrite <- Z.mod_pow_l. rewrite (Z.fermat_nz p m Hp H0).
    rewrite Z.pow_1_l by exact Hk.
    rewrite Z.mul_mod_idemp_r by lia. rewrite Z.mul_1_r. reflexivity.
Qed.

Lemma distinct_primes_coprime p q :
  Z.prime p -> Z.prime q -> p <> q -> Z.gcd p q = 1.
Proof.
  intros Hp Hq Hne. apply Z.coprime_prime_l; [exact Hp|].
  intros Hdiv. destruct Hq as [Hq1 Hq].
  pose proof (Z.prime_ge_2 p Hp) as Hp2.
  pose proof (Z.divide_pos_le p q ltac:(lia) Hdiv) as Hle.
  apply (Hq p); [lia | exact Hdiv].
Qed.

Lemma divide_coprime_product p q x :
  Z.gcd p q = 1 -> (p | x) -> (q | x) -> (p * q | x).
Proof.
  intros Hg Hp [t ->]. rewrite Z.mul_comm in Hp.
  apply Z.gauss in Hp; [|exact Hg].
  destruct Hp as [u ->]. exists u. ring.
Qed.

Lemma rsa_exponents_cancel p q e d m :
  Z.prime p -> Z.prime q -> p <> q ->
  0 <= e -> 0 <= d -> (e * d) mod ((p - 1) * (q - 1)) = 1 ->
  0 <= m < p * q ->
  (m ^ e mod (p * q)) ^ d mod (p * q) = m.
Proof.
  intros Hp Hq Hne He Hd Hed Hm.
  pose proof (Z.prime_ge_2 p Hp) as Hp2.
  pose proof (Z.prime_ge_2 q Hq) as Hq2.
  rewrite Z.mod_pow_l, <- Z.pow_mul_r by assumption.
  assert (Hphi : 0 < (p - 1) * (q - 1)) by (apply Z.mul_pos_pos; lia).
  pose proof (Z.div_mod (e * d) ((p - 1) * (q - 1)) ltac:(lia)) as Hdm.
  rewrite Hed in Hdm.
  assert (Hk : 0 <= e * d / ((p - 1) * (q - 1))).
  { apply Z.div_pos; [apply Z.mul_nonneg_nonneg; assumption | exact Hphi]. }
  set (k := e * d / ((p - 1) * (q - 1))) in *. clearbody k.
  rewrite Hdm.
  assert (Hmodp : m ^ ((p - 1) * (q - 1) * k + 1) mod p = m mod p).
  { replace ((p - 1) * (q - 1) * k + 1) with (1 + (p - 1) * ((q - 1) * k))
      by ring.
    apply pow_cycle_prime; [exact Hp|]. apply Z.mul_nonneg_nonneg; lia. }
  assert (Hmodq : m ^ ((p - 1) * (q - 1) * k + 1) mod q = m mod q).
  { replace ((p - 1) * (q - 1) * k + 1) with (1 + (q - 1) * ((p - 1) * k))
      by ring.
    apply pow_cycle_prime; [exact Hq|]. apply Z.mul_nonneg_nonneg; lia. }
  set (x := m ^ ((p - 1) * (q - 1) * k + 1)) in *. clearbody x.
  apply Zdivide_mod_minus; [exact Hm|].
  apply divide_coprime_product.
  - apply distinct_primes_coprime; assumption.
  - apply Z.mod_divide; [lia|]. rewrite Zminus_mod, Hmodp, Z.sub_diag.
    apply Z.mod_0_l. lia.
  - apply Z.mod_divide; [lia|]. rewrite Zminus_mod, Hmodq, Z.sub_diag.
    apply Z.mod_0_l. lia.
Qed.

(** Decrypting the blocks of an accepted plaintext gives it back. *)
Lemma decrypt_loop_inverts n e d plaintext acc w :
  0 < n -> 0 <= d ->
  Forall (fun c => ord c < n) plaintext ->
  (forall m, 0 <= m < n -> (m ^ e mod n) ^ d mod n = m) ->
  decrypt_loop n d (map (fun c => ord c ^ e mod n) plaintext) acc w
  = (Done (acc ++ plaintext), w).
Proof.
  intros Hn Hd Hall Hinv. revert acc.
  induction plaintext as [|c rest IH]; intros acc.
  - simpl. rewrite app_nil_r. reflexivity.
  - inversion Hall as [|? ? Hc Hrest]; subst. simpl.
    rewrite pow3_nonneg by lia. rewrite lift_bind.
    pose proof (ord_range c) as Hr.
    rewrite Hinv by lia. rewrite chr_ord, lift_bind.
    rewrite IH by assumption. rewrite <- app_assoc. reflexivity.
Qed.

Lemma prime_5 : Z.prime 5.
Proof.
  split; [lia|]. intros k Hk Hdiv. apply Z.mod_divide in Hdiv; [|lia].
  assert (k = 2 \/ k = 3 \/ k = 4) as [->|[->| ->]] by lia; discriminate.
Qed.

Lemma prime_7 : Z.prime 7.
Proof.
  split; [lia|]. intros k Hk Hdiv. apply Z.mod_divide in Hdiv; [|lia].
  assert (k = 2 \/ k = 3 \/ k = 4 \/ k = 5 \/ k = 6)
    as [->|[->|[->|[->| ->]]]] by lia; discriminate.
Qed.

(** C1 (amended). When the two values the key pair was built from are
    prime, decrypting with the private key what [encrypt] returned under
    the public key, for a plaintext whose code points are all below [n],
    gives the plaintext back. *)
Theorem roundtrip_on_primes
    (fuel : nat) (bits : Z) (w w' w1 w2 : world) (n e n' d p q : Z)
    (plaintext : str) :
  generate_keypair fuel bits w = (Done ((n, e), (n', d)), w') ->
  keypair_primes fuel bits w = (Done (p, q), w1) ->
  Z.prime p -> Z.prime q ->
  Forall (fun c => ord c < n) plaintext ->
  (ciphertext <- encrypt (n, e) plaintext ;; decrypt (n', d) ciphertext) w2
  = (Done plaintext, w2).
Proof.
  intros Hgen Hpq Hp Hq Hall. apply generate_keypair_spec in Hgen.
  destruct Hgen as (p1 & q1 & w3 & e1 & d1 & Hpq' & Hpub & Hpriv & Hne & Hp3 &
                    Hq3 & He & _ & _ & Hd & Hed).
  rewrite Hpq in Hpq'. injection Hpq' as <- <- _.
  injection Hpub as -> ->. injection Hpriv as -> ->.
  assert (Hn : 0 < p * q) by (apply Z.mul_pos_pos; lia).
  unfold encrypt, decrypt.
  rewrite (bind_run _ _ _ _ _
             (encrypt_loop_accepts (p * q) e1 plaintext [] w2 ltac:(lia) Hall)).
  simpl app.
  apply (decrypt_loop_inverts (p * q) e1 d1 plaintext [] w2 Hn Hd Hall).
  intros m Hm. apply rsa_exponents_cancel; try assumption. lia.
Qed.

Lemma roundtrip_on_primes_witness :
  (ciphertext <- encrypt (35, 65537) [chr5; chr5] ;;
   decrypt (35, 17) ciphertext) (world_of [])
  = (Done [chr5; chr5], world_of []).
Proof.
  eapply (roundtrip_on_primes 3 6 (world_of [5; 0; 0; 0; 0; 0; 7])).
  - vm_compute. reflexivity.
  - vm_compute. reflexivity.
  - exact prime_5.
  - exact prime_7.
  - repeat constructor.
Defined.

(** C1 as stated fails: [is_prime] can accept a composite.  When the five
    witnesses drawn for [25] are all [7], [generate_prime(5)] returns
    [25], the key pair is [((425, 65537), (425, 257))], and the character
    of code point [5], which is below [425], encrypts to [175] and
    decrypts to the character of code point [175]. *)
Lemma roundtrip_counterexample :
  fst (generate_keypair 3 10 (world_of [25; 5; 5; 5; 5; 5; 17]))
  = Done ((425, 65537), (425, 257)) /\
  Forall (fun c => ord c < 425) [chr5] /\
  (ciphertext <- encrypt (425, 65537) [chr5] ;;
   decrypt (425, 257) ciphertext) (world_of [])
  = (Done [chr175], world_of []) /\
  [chr175] <> [chr5].
Proof.
  split; [vm_compute; reflexivity|].
  split; [repeat constructor|].
  split; [vm_compute; reflexivity|].
  discriminate.
Qed.

(** ** Fuel *)

Lemma regenerate_q_fuel_mono fuel fuel' inner inner' bits p q w q' w' :
  regenerate_q fuel inner bits p q w = (Done q', w') ->
  (fuel <= fuel')%nat -> (inner <= inner')%nat ->
  regenerate_q fuel' inner' bits p q w = (Done q', w').
Proof.
  revert fuel' q w. induction fuel as [|fuel IH]; intros fuel' q w H Hle Hin;
    [discriminate|].
  destruct fuel' as [|fuel']; [lia|]. simpl in H |- *.
  destruct (p =? q); [|exact H].
  inv_bind H as q1 w1 Hgen.
  rewrite (bind_run _ _ _ _ _
             (generate_prime_fuel_mono _ inner' _ _ _ _ Hgen Hin)).
  apply IH; [exact H | lia | exact Hin].
Qed.

Lemma choose_e_fuel_mono fuel fuel' e phi w e' w' :
  choose_e fuel e phi w = (Done e', w') -> (fuel <= fuel')%nat ->
  choose_e fuel' e phi w = (Done e', w').
Proof.
  revert fuel' e w. induction fuel as [|fuel IH]; intros fuel' e w H Hle;
    [discriminate|].
  destruct fuel' as [|fuel']; [lia|]. simpl in H |- *.
  step_bind H g w1 Hg. destruct (negb (g =? 1)); [|exact H].
  step_bind H e1 w2 Hr. apply IH; [exact H | lia].
Qed.

(** A finished key generation does not depend on the fuel it was given. *)
Lemma generate_keypair_fuel_mono fuel fuel' bits w keys w' :
  generate_keypair fuel bits w = (Done keys, w') -> (fuel <= fuel')%nat ->
  generate_keypair fuel' bits w = (Done keys, w').
Proof.
  intros H Hle. unfold generate_keypair in H |- *.
  inv_bind H as pq w1 Hpq.
  assert (Hpq' : keypair_primes fuel' bits w = (Done pq, w1)).
  { unfold keypair_primes in Hpq |- *.
    step_bind Hpq u wa Hu. inv_bind Hpq as p wb Hp. inv_bind Hpq as q wc Hq.
    inv_bind Hpq as q2 wd Hq2.
    rewrite (bind_run _ _ _ _ _ (generate_prime_fuel_mono _ fuel' _ _ _ _ Hp Hle)).
    rewrite (bind_run _ _ _ _ _ (generate_prime_fuel_mono _ fuel' _ _ _ _ Hq Hle)).
    rewrite (bind_run _ _ _ _ _
               (regenerate_q_fuel_mono _ fuel' _ fuel' _ _ _ _ _ _ Hq2 Hle Hle)).
    exact Hpq. }
  rewrite (bind_run _ _ _ _ _ Hpq'). unfold keypair_from in H |- *.
  do 11 (let u := fresh "u" in let wx := fresh "w" in let E := fresh "E" in
         step_bind H u wx E; clear E).
  inv_bind H as e wa He.
  rewrite (bind_run _ _ _ _ _ (choose_e_fuel_mono _ fuel' _ _ _ _ _ He Hle)).
  exact H.
Qed.

(** * Further properties of the core *)

(** ** [gcd] on arbitrary integers *)

Lemma gcd_loop_abs fuel a b :
  (Z.abs_nat b < fuel)%nat ->
  exists g, gcd_loop fuel a b = Done g /\ Z.abs g = Z.gcd a b.
Proof.
  revert a b. induction fuel as [|fuel IH]; intros a b Hf; [lia|].
  simpl. destruct (Z.eqb_spec b 0) as [->|Hb].
  - exists a. split; [reflexivity|]. rewrite Z.gcd_0_r. reflexivity.
  - assert (Hlt : Z.abs (a mod b) < Z.abs b).
    { destruct (Z.lt_ge_cases 0 b) as [Hp|Hn].
      - pose proof (Z.mod_pos_bound a b Hp). lia.
      - pose proof (Z.mod_neg_bound a b ltac:(lia)). lia. }
    destruct (IH b (a mod b) ltac:(lia)) as (g & Hg & Habs).
    exists g. split; [exact Hg|].
    rewrite Habs, Z.gcd_mod_r. apply Z.gcd_comm.
Qed.

(** X1. [gcd] ends on every pair of integers and never raises; the
    absolute value of its result is the greatest common divisor, and the
    result itself is when both arguments are non-negative. *)
Theorem gcd_is_gcd_up_to_sign (a b : Z) :
  exists g, gcd a b = Done g /\ Z.abs g = Z.gcd a b /\
            (0 <= a -> 0 <= b -> g = Z.gcd a b).
Proof.
  destruct (gcd_loop_abs (S (Z.abs_nat b)) a b ltac:(lia)) as (g & Hg & Habs).
  exists g. split; [exact Hg|]. split; [exact Habs|].
  intros Ha Hb. pose proof (gcd_nonneg a b Ha Hb) as Hn. unfold gcd in Hn.
  rewrite Hn in Hg. injection Hg as <-. reflexivity.
Qed.

Lemma gcd_is_gcd_up_to_sign_witness :
  exists g, gcd 48 18 = Done g /\ g = Z.gcd 48 18.
Proof.
  destruct (gcd_is_gcd_up_to_sign 48 18) as (g & Hg & _ & Hnn).
  exists g. split; [exact Hg | apply Hnn; lia].
Defined.

(** ** [mod_inverse] outside its contract *)

Lemma mod_inverse_loop_not_coprime fuel a m x y :
  0 < a -> 0 <= m -> Z.gcd a m <> 1 -> (Z.abs_nat m < fuel)%nat ->
  mod_inverse_loop fuel a m x y = Raise ZeroDivisionError.
Proof.
  revert a m x y. induction fuel as [|fuel IH]; intros a m x y Ha Hm Hg Hf;
    [lia|].
  simpl. destruct (Z.ltb_spec 1 a) as [Ha1|Ha1].
  - destruct (Z.eqb_spec m 0) as [->|Hm0]; [reflexivity|].
    pose proof (Z.mod_pos_bound a m ltac:(lia)) as Hr.
    apply IH; try lia.
    rewrite Z.gcd_mod_r, Z.gcd_comm. exact Hg.
  - exfalso. assert (a = 1) as -> by lia. apply Hg. apply Z.gcd_1_l.
Qed.

(** X2. On positive arguments that are not coprime, [mod_inverse] raises
    [ZeroDivisionError]: the Euclidean reduction reaches [m = 0] while [a]
    is still above [1]. *)
Theorem mod_inverse_not_coprime_raises (a m : Z) :
  0 < a -> 0 < m -> Z.gcd a m <> 1 ->
  mod_inverse a m = Raise ZeroDivisionError.
Proof.
  intros Ha Hm Hg. unfold mod_inverse.
  destruct (Z.eqb_spec m 1) as [->|_].
  - exfalso. apply Hg. apply Z.gcd_1_r.
  - rewrite mod_inverse_loop_not_coprime by lia. reflexivity.
Qed.

Lemma mod_inverse_not_coprime_raises_witness :
  mod_inverse 6 4 = Raise ZeroDivisionError.
Proof.
  apply (mod_inverse_not_coprime_raises 6 4).
  - lia.
  - lia.
  - vm_compute. discriminate.
Defined.

(** X3. For [a <= 1] the loop does not run and the result is [1] for every
    modulus other than [1], with no error: for [a = 0] or a negative [a]
    whose residue is not [1] this is not an inverse. *)
Theorem mod_inverse_small_a (a m : Z) :
  a <= 1 -> m <> 1 -> mod_inverse a m = Done 1.
Proof.
  intros Ha Hm. unfold mod_inverse.
  destruct (Z.eqb_spec m 1); [contradiction|].
  simpl. destruct (Z.ltb_spec 1 a); [lia|]. reflexivity.
Qed.

Lemma mod_inverse_small_a_witness : mod_inverse 0 7 = Done 1.
Proof. apply (mod_inverse_small_a 0 7); lia. Defined.

Lemma inverse_unique m a x y :
  0 < m -> 0 <= x < m -> 0 <= y < m ->
  (a * x) mod m = 1 mod m -> (a * y) mod m = 1 mod m -> x = y.
Proof.
  intros Hm Hx Hy Hax Hay.
  assert (Hxy : (x * (a * y)) mod m = (y * (a * x)) mod m).
  { f_equal. ring. }
  rewrite <- Z.mul_mod_idemp_r, Hay, Z.mul_mod_idemp_r in Hxy by lia.
  rewrite <- (Z.mul_mod_idemp_r y), Hax, Z.mul_mod_idemp_r in Hxy by lia.
  rewrite !Z.mul_1_r in Hxy. rewrite !Z.mod_small in Hxy by lia. exact Hxy.
Qed.

(** X4. For positive coprime arguments the result is the only inverse of
    [a] in [0 .. m - 1], so it depends on [a] only through [a % m]:
    adding a multiple of [m] to [a] does not change it. *)
Theorem mod_inverse_unique (a m : Z) :
  0 < a -> 0 < m -> Z.gcd a m = 1 ->
  exists x, mod_inverse a m = Done x /\
    (forall y, 0 <= y < m -> (a * y) mod m = 1 mod m -> y = x) /\
    (forall k, 0 <= k -> mod_inverse (a + k * m) m = Done x).
Proof.
  intros Ha Hm Hg.
  destruct (mod_inverse_spec a m Ha Hm Hg) as (x & Hx & Hr & Hmod).
  exists x. split; [exact Hx|]. split.
  - intros y Hy Hay. apply (inverse_unique m a y x); assumption.
  - intros k Hk.
    assert (Hpos : 0 < a + k * m).
    { pose proof (Z.mul_nonneg_nonneg k m Hk ltac:(lia)). lia. }
    assert (Hg' : Z.gcd (a + k * m) m = 1).
    { rewrite Z.gcd_comm, Z.gcd_add_mult_diag_r, Z.gcd_comm. exact Hg. }
    destruct (mod_inverse_spec (a + k * m) m Hpos Hm Hg')
      as (x' & Hx' & Hr' & Hmod').
    rewrite Hx'. f_equal. apply (inverse_unique m a x' x); try assumption.
    rewrite <- Hmod'. rewrite Z.mul_add_distr_r.
    replace (k * m * x') with (k * x' * m) by ring.
    rewrite Z.mod_add by lia. reflexivity.
Qed.

Lemma mod_inverse_unique_witness :
  exists x, mod_inverse 3 11 = Done x /\
    (forall y, 0 <= y < 11 -> (3 * y) mod 11 = 1 mod 11 -> y = x) /\
    (forall k, 0 <= k -> mod_inverse (3 + k * 11) 11 = Done x).
Proof.
  apply (mod_inverse_unique 3 11).
  - lia.
  - lia.
  - reflexivity.
Defined.

(** X5. [mod_inverse] undoes itself: for positive coprime [a] and
    [m > 1], the inverse of [mod_inverse(a, m)] modulo [m] is [a % m]. *)
Theorem mod_inverse_involutive (a m : Z) :
  0 < a -> 1 < m -> Z.gcd a m = 1 ->
  exists x, mod_inverse a m = Done x /\ mod_inverse x m = Done (a mod m).
Proof.
  intros Ha Hm Hg.
  destruct (mod_inverse_spec a m Ha ltac:(lia) Hg) as (x & Hx & Hr & Hmod).
  exists x. split; [exact Hx|].
  rewrite Z.mod_1_l in Hmod by exact Hm.
  assert (Hx0 : 0 < x).
  { destruct (Z.eq_dec x 0) as [->|]; [|lia].
    rewrite Z.mul_0_r, Z.mod_0_l in Hmod by lia. discriminate. }
  assert (Hgx : Z.gcd x m = 1).
  { apply Z.bezout_1_gcd. exists a, (- (a * x / m)).
    pose proof (Z.div_mod (a * x) m ltac:(lia)) as Hdm. rewrite Hmod in Hdm.
    lia. }
  destruct (mod_inverse_spec x m Hx0 ltac:(lia) Hgx) as (y & Hy & Hry & Hmody).
  rewrite Hy. f_equal.
  pose proof (Z.mod_pos_bound a m ltac:(lia)) as Ham.
  apply (inverse_unique m x y (a mod m)); try assumption; try lia.
  rewrite Z.mul_mod_idemp_r by lia. rewrite Z.mul_comm, Hmod.
  rewrite Z.mod_1_l by exact Hm. reflexivity.
Qed.

Lemma mod_inverse_involutive_witness :
  exists x, mod_inverse 65537 24 = Done x /\
            mod_inverse x 24 = Done (65537 mod 24).
Proof.
  apply (mod_inverse_involutive 65537 24).
  - lia.
  - lia.
  - reflexivity.
Defined.

(** ** [is_prime]: effects, and primes are never rejected *)

Lemma witness_rounds_effects k n s d w :
  4 <= n -> 0 <= d ->
  exists b w', witness_rounds k n s d w = (Done b, w') /\
    rng w' = rng w /\ ui w' = ui w /\
    (cursor w <= cursor w' <= cursor w + k)%nat.
Proof.
  intros Hn Hd. revert w. induction k as [|k IH]; intros w; simpl.
  - exists true, w. repeat split; lia.
  - unfold randint. destruct (Z.ltb_spec (n - 2) 2) as [Hlt|_]; [lia|].
    cbv [bind draw ret lift]. rewrite pow3_nonneg by lia.
    set (w1 := World (rng w) (S (cursor w)) (ui w)).
    assert (Hnext : exists b w',
               witness_rounds k n s d w1 = (Done b, w') /\
               rng w' = rng w /\ ui w' = ui w /\
               (cursor w <= cursor w' <= cursor w + S k)%nat).
    { destruct (IH w1) as (b & w' & Hrun & Hrng & Hui & Hcur).
      exists b, w'. simpl in Hrng, Hui, Hcur. repeat split; try assumption; lia. }
    destruct (_ || _); [exact Hnext|].
    destruct (squarings_total (Z.to_nat (s - 1))
                ((2 + rng w (cursor w) mod (n - 2 - 2 + 1)) ^ d mod n) n
                ltac:(lia)) as [b Hb].
    rewrite Hb. destruct b; [exact Hnext|].
    exists false, w1. simpl. repeat split; lia.
Qed.

Lemma is_prime_run n k w :
  exists b w', is_prime n k w = (Done b, w') /\
    rng w' = rng w /\ ui w' = ui w /\
    (cursor w <= cursor w' <= cursor w + Z.to_nat k)%nat.
Proof.
  unfold is_prime.
  destruct ((n <=? 1) || (n =? 4)) eqn:Hsmall.
  { exists false, w. repeat split; lia. }
  apply orb_false_iff in Hsmall. destruct Hsmall as [H1 _].
  apply Z.leb_gt in H1.
  destruct (Z.leb_spec n 3) as [H3|H3].
  { exists true, w. repeat split; lia. }
  destruct (n mod 2 =? 0).
  { exists false, w. repeat split; lia. }
  destruct (split_twos_total (S (Z.abs_nat (n - 1))) 0 (n - 1))
    as (s & d & Hsd & Hd); [lia | lia |].
  rewrite Hsd. cbv [bind lift]. simpl fst. simpl snd.
  apply witness_rounds_effects; lia.
Qed.

(** X6. [is_prime] answers a boolean for every [n] and every number of
    rounds [k]: it never raises and its loops end.  It makes no streamlit
    call and draws at most [k] random numbers. *)
Theorem is_prime_answers (n k : Z) (w : world) :
  exists b w', is_prime n k w = (Done b, w') /\
    rng w' = rng w /\ ui w' = ui w /\
    (cursor w <= cursor w' <= cursor w + Z.to_nat k)%nat.
Proof. apply is_prime_run. Qed.

(** X7. With no rounds to run ([k <= 0]) every odd [n >= 5] is declared
    prime, without a single draw. *)
Theorem is_prime_no_rounds (n k : Z) (w : world) :
  k <= 0 -> 5 <= n -> Z.odd n = true ->
  is_prime n k w = (Done true, w).
Proof.
  intros Hk Hn Hodd. unfold is_prime.
  destruct (Z.leb_spec n 1); [lia|].
  destruct (Z.eqb_spec n 4); [lia|]. cbn [orb].
  destruct (Z.leb_spec n 3); [lia|].
  rewrite Zmod_odd, Hodd. change (1 =? 0) with false. cbv iota.
  destruct (split_twos_total (S (Z.abs_nat (n - 1))) 0 (n - 1))
    as (s & d & Hsd & Hd); [lia | lia |].
  rewrite Hsd. cbv [bind lift]. simpl fst. simpl snd.
  replace (Z.to_nat k) with 0%nat by lia. reflexivity.
Qed.

Lemma is_prime_no_rounds_witness :
  is_prime 9 0 (world_of []) = (Done true, world_of []).
Proof. apply (is_prime_no_rounds 9 0); [lia | lia | reflexivity]. Defined.

Lemma split_twos_spec fuel s d s' d' :
  0 < d -> split_twos fuel s d = Done (s', d') ->
  s <= s' /\ d = d' * 2 ^ (s' - s) /\ d' mod 2 = 1.
Proof.
  revert s d. induction fuel as [|fuel IH]; intros s d Hd H; [discriminate|].
  simpl in H. destruct (Z.eqb_spec (d mod 2) 0) as [He|Ho].
  - pose proof (Z.div_mod d 2 ltac:(lia)) as Hdm.
    apply IH in H; [|lia]. destruct H as (Hs & Hpow & Hodd).
    split; [lia|]. split; [|exact Hodd].
    replace (s' - s) with (Z.succ (s' - (s + 1))) by lia.
    rewrite Z.pow_succ_r by lia. lia.
  - injection H as <- <-. split; [lia|]. split.
    + rewrite Z.sub_diag. simpl. lia.
    + pose proof (Z.mod_pos_bound d 2 ltac:(lia)). lia.
Qed.

Lemma sqrt_one_mod_prime n x :
  Z.prime n -> 0 <= x < n -> x ^ 2 mod n = 1 -> x = 1 \/ x = n - 1.
Proof.
  intros Hn Hx Hsq. pose proof (Z.prime_ge_2 n Hn) as Hn2.
  assert (Hdiv : (n | (x - 1) * (x + 1))).
  { replace ((x - 1) * (x + 1)) with (x ^ 2 - 1) by (rewrite Z.pow_2_r; ring).
    apply Zmod_divide_minus; [lia | exact Hsq]. }
  apply (Z.divide_prime_mul _ _ _ Hn) in Hdiv. destruct Hdiv as [[k Hk]|[k Hk]].
  - left. assert (k = 0) by nia. lia.
  - right. assert (k = 1) by nia. lia.
Qed.

Lemma squarings_prime r x n :
  Z.prime n -> 0 <= x < n -> x <> 1 -> x <> n - 1 ->
  x ^ (2 ^ Z.of_nat (S r)) mod n = 1 ->
  squarings r x n = Done true.
Proof.
  intros Hn. pose proof (Z.prime_ge_2 n Hn) as Hn2.
  revert x. induction r as [|r IH]; intros x Hx H1 Hm1 Hpow.
  - exfalso. change (2 ^ Z.of_nat 1) with 2 in Hpow.
    destruct (sqrt_one_mod_prime n x Hn Hx Hpow); contradiction.
  - simpl squarings. rewrite pow3_nonneg by lia.
    destruct (Z.eqb_spec (x ^ 2 mod n) (n - 1)) as [_|Hne]; [reflexivity|].
    pose proof (Z.mod_pos_bound (x ^ 2) n ltac:(lia)) as Hb.
    assert (Hnext : (x ^ 2 mod n) ^ (2 ^ Z.of_nat (S r)) mod n = 1).
    { rewrite Z.mod_pow_l, <- Z.pow_mul_r by lia.
      rewrite <- Z.pow_succ_r by lia. rewrite <- Nat2Z.inj_succ. exact Hpow. }
    apply IH; try assumption.
    intros E. rewrite E in Hnext. rewrite Z.pow_1_l in Hnext by lia.
    clear IH Hpow. 
    destruct (sqrt_one_mod_prime n x Hn Hx E); contradiction.
Qed.

Lemma witness_rounds_prime k n s d w :
  Z.prime n -> 5 <= n -> 1 <= s -> 0 <= d -> n - 1 = d * 2 ^ s ->
  exists w', witness_rounds k n s d w = (Done true, w').
Proof.
  intros Hn Hn5 Hs Hd Hsd. revert w. induction k as [|k IH]; intros w; simpl.
  - exists w. reflexivity.
  - unfold randint. destruct (Z.ltb_spec (n - 2) 2) as [Hlt|_]; [lia|].
    cbv [bind draw ret lift]. rewrite pow3_nonneg by lia.
    set (a := 2 + rng w (cursor w) mod (n - 2 - 2 + 1)).
    assert (Ha : 2 <= a <= n - 2).
    { pose proof (Z.mod_pos_bound (rng w (cursor w)) (n - 2 - 2 + 1)
                    ltac:(lia)). unfold a. lia. }
    clearbody a.
    destruct ((a ^ d mod n =? 1) || (a ^ d mod n =? n - 1)) eqn:Hfast;
      [apply IH|].
    apply orb_false_iff in Hfast. destruct Hfast as [Hx1 Hxm1].
    apply Z.eqb_neq in Hx1, Hxm1.
    rewrite squarings_prime; [apply IH | exact Hn | | exact Hx1 | exact Hxm1 |].
    + apply Z.mod_pos_bound. lia.
    + replace (Z.of_nat (S (Z.to_nat (s - 1)))) with s by lia.
      rewrite Z.mod_pow_l, <- Z.pow_mul_r by lia. rewrite <- Hsd.
      apply Z.fermat_nz; [exact Hn|]. rewrite Z.mod_small by lia. lia.
Qed.

Lemma is_prime_on_prime n k w :
  Z.prime n -> exists w', is_prime n k w = (Done true, w').
Proof.
  intros Hn. pose proof (Z.prime_ge_2 n Hn) as Hn2. unfold is_prime.
  destruct (Z.leb_spec n 1); [lia|].
  destruct (Z.eqb_spec n 4) as [->|Hn4].
  { exfalso. destruct Hn as [_ Hn]. apply (Hn 2); [lia | exists 2; lia]. }
  cbn [orb].
  destruct (Z.leb_spec n 3); [exists w; reflexivity|].
  destruct (Z.eqb_spec (n mod 2) 0) as [He|Ho].
  { exfalso. destruct Hn as [_ Hn]. apply (Hn 2); [lia|].
    apply Z.mod_divide; [lia | exact He]. }
  destruct (split_twos_total (S (Z.abs_nat (n - 1))) 0 (n - 1))
    as (s & d & Hsd & Hd); [lia | lia |].
  rewrite Hsd. cbv [bind lift]. simpl fst. simpl snd.
  apply split_twos_spec in Hsd; [|lia]. destruct Hsd as (Hs & Hpow & Hodd).
  rewrite Z.sub_0_r in Hpow.
  assert (Hs1 : 1 <= s).
  { destruct (Z.eq_dec s 0) as [->|]; [|lia]. exfalso.
    change (2 ^ 0) with 1 in Hpow.
    pose proof (Z.mod_pos_bound n 2 ltac:(lia)).
    assert (Hn1 : (n - 1) mod 2 = 1) by (rewrite Hpow, Z.mul_1_r; exact Hodd).
    rewrite Zminus_mod in Hn1. 
    assert (n mod 2 = 1) as E by lia. rewrite E in Hn1. discriminate. }
  apply witness_rounds_prime; try assumption; lia.
Qed.

(** X8. [is_prime] never rejects a prime: for a prime [n] the answer is
    [True] for every number of rounds and whatever witnesses are drawn.
    So an answer [False] proves that [n] is not prime. *)
Theorem is_prime_accepts_primes (n k : Z) (w w' : world) :
  (Z.prime n -> exists w1, is_prime n k w = (Done true, w1)) /\
  (is_prime n k w = (Done false, w') -> ~ Z.prime n).
Proof.
  split.
  - apply is_prime_on_prime.
  - intros H Hn. destruct (is_prime_on_prime n k w Hn) as [w1 Hrun].
    rewrite Hrun in H. discriminate.
Qed.

Lemma is_prime_accepts_primes_witness :
  (exists w1, is_prime 7 5 (world_of [3; 1; 4; 1; 5]) = (Done true, w1)) /\
  ~ Z.prime 9.
Proof.
  split.
  - apply (proj1 (is_prime_accepts_primes 7 5 (world_of [3; 1; 4; 1; 5])
                    (world_of []))).
    exact prime_7.
  - apply (proj2 (is_prime_accepts_primes 9 5 (world_of [])
                    (World (tape_of []) 1 []))).
    vm_compute. reflexivity.
Defined.

(** ** [generate_prime] and [generate_keypair] on degenerate sizes *)

Lemma getrandbits_run k w :
  0 <= k ->
  getrandbits k w
  = (Done (rng w (cursor w) mod 2 ^ k), World (rng w) (S (cursor w)) (ui w)).
Proof.
  intros Hk. unfold getrandbits. destruct (Z.ltb_spec k 0); [lia|]. reflexivity.
Qed.

Lemma generate_prime_step fuel bits w :
  generate_prime (S fuel) bits w
  = (p <- getrandbits bits ;;
     msb <- lift (shl 1 (bits - 1)) ;;
     ok <- is_prime (Z.lor p (Z.lor msb 1)) 5 ;;
     if ok then ret (Z.lor p (Z.lor msb 1)) else generate_prime fuel bits) w.
Proof. reflexivity. Qed.

Lemma generate_prime_one_bit fuel w :
  fst (generate_prime fuel 1 w) = OutOfFuel.
Proof.
  revert w. induction fuel as [|fuel IH]; intros w; [reflexivity|].
  rewrite generate_prime_step.
  rewrite (bind_run _ _ _ _ _ (getrandbits_run 1 w ltac:(lia))).
  change (shl 1 (1 - 1)) with (Done 1). rewrite lift_bind.
  assert (Hp : Z.lor (rng w (cursor w) mod 2 ^ 1) (Z.lor 1 1) = 1).
  { pose proof (Z.mod_pos_bound (rng w (cursor w)) (2 ^ 1) ltac:(lia)) as Hb.
    change (2 ^ 1) with 2 in *.
    assert (rng w (cursor w) mod 2 = 0 \/ rng w (cursor w) mod 2 = 1)
      as [-> | ->] by lia; reflexivity. }
  rewrite Hp. change (is_prime 1 5) with (@ret bool false).
  apply IH.
Qed.

Lemma generate_prime_two_bits fuel w :
  generate_prime (S fuel) 2 w
  = (Done 3, World (rng w) (S (cursor w)) (ui w)).
Proof.
  rewrite generate_prime_step.
  rewrite (bind_run _ _ _ _ _ (getrandbits_run 2 w ltac:(lia))).
  change (shl 1 (2 - 1)) with (Done 2). rewrite lift_bind.
  assert (Hp : Z.lor (rng w (cursor w) mod 2 ^ 2) (Z.lor 2 1) = 3).
  { pose proof (Z.mod_pos_bound (rng w (cursor w)) (2 ^ 2) ltac:(lia)) as Hb.
    change (2 ^ 2) with 4 in *.
    assert (rng w (cursor w) mod 4 = 0 \/ rng w (cursor w) mod 4 = 1 \/
            rng w (cursor w) mod 4 = 2 \/ rng w (cursor w) mod 4 = 3)
      as [-> | [-> | [-> | ->]]] by lia; reflexivity. }
  rewrite Hp. reflexivity.
Qed.

Lemma generate_prime_no_bits fuel bits w :
  bits <= 0 -> fst (generate_prime (S fuel) bits w) = Raise ValueError.
Proof.
  intros Hb. rewrite generate_prime_step. unfold getrandbits.
  destruct (Z.ltb_spec bits 0) as [Hneg|Hz]; [reflexivity|].
  cbv [bind draw ret lift shl].
  destruct (Z.ltb_spec (bits - 1) 0); [reflexivity | lia].
Qed.

(** X9. [generate_prime] has no useful answer below two bits: for
    [bits <= 0] its first attempt raises [ValueError], and for [bits = 1]
    the only candidate is [1], which [is_prime] rejects, so the search
    never ends. *)
Theorem generate_prime_degenerate (fuel : nat) (bits : Z) (w : world) :
  (bits <= 0 -> fst (generate_prime (S fuel) bits w) = Raise ValueError) /\
  (bits = 1 -> fst (generate_prime fuel bits w) = OutOfFuel).
Proof.
  split.
  - apply generate_prime_no_bits.
  - intros ->. apply generate_prime_one_bit.
Qed.

Lemma generate_prime_degenerate_witness :
  fst (generate_prime 1 0 (world_of [])) = Raise ValueError /\
  fst (generate_prime 50 1 (world_of [])) = OutOfFuel.
Proof.
  split.
  - apply (proj1 (generate_prime_degenerate 0 0 (world_of []))). lia.
  - apply (proj2 (generate_prime_degenerate 50 1 (world_of []))). reflexivity.
Defined.

Lemma regenerate_q_three fuel inner bits w :
  bits / 2 = 2 -> fst (regenerate_q fuel inner bits 3 3 w) = OutOfFuel.
Proof.
  intros Hh. revert w. induction fuel as [|fuel IH]; intros w; [reflexivity|].
  simpl regenerate_q. rewrite Hh. destruct inner as [|inner]; [reflexivity|].
  rewrite (bind_run _ _ _ _ _ (generate_prime_two_bits inner w)).
  apply IH.
Qed.

Lemma fst_bind_stuck {A B} (c : M A) (k : A -> M B) w r :
  fst (c w) = r -> (forall a, r <> Done a) ->
  fst (bind c k w) = match r with
                     | Done _ => OutOfFuel
                     | Raise e => Raise e
                     | OutOfFuel => OutOfFuel
                     end.
Proof.
  unfold bind. destruct (c w) as [[a|e|] w1]; simpl; intros <- Hr.
  - exfalso. apply (Hr a). reflexivity.
  - reflexivity.
  - reflexivity.
Qed.

(** X10. [generate_keypair] needs [bits >= 6].  For [bits <= 1] the prime
    search raises [ValueError] (after the first [st.info]); for
    [bits] in [2 .. 3] the search for a one-bit prime never ends; for
    [bits] in [4 .. 5] both primes are [3] and the loop that waits for
    [q != p] never ends. *)
Theorem generate_keypair_degenerate (fuel : nat) (bits : Z) (w : world) :
  (bits <= 1 -> fst (generate_keypair (S fuel) bits w) = Raise ValueError) /\
  (2 <= bits <= 5 -> fst (generate_keypair fuel bits w) = OutOfFuel).
Proof.
  split.
  - intros Hb. assert (Hh : bits / 2 <= 0).
    { apply Z.lt_succ_r. apply Z.div_lt_upper_bound; lia. }
    unfold generate_keypair.
    apply (fst_bind_stuck _ _ _ (Raise ValueError)); [|discriminate].
    unfold keypair_primes. rewrite emit_bind.
    apply (fst_bind_stuck _ _ _ (Raise ValueError)); [|discriminate].
    apply generate_prime_no_bits. exact Hh.
  - intros Hb. unfold generate_keypair.
    apply (fst_bind_stuck _ _ _ OutOfFuel); [|discriminate].
    unfold keypair_primes. rewrite emit_bind.
    assert (Hh : bits / 2 = 1 \/ bits / 2 = 2).
    { assert (1 <= bits / 2) by (apply Z.div_le_lower_bound; lia).
      assert (bits / 2 < 3) by (apply Z.div_lt_upper_bound; lia). lia. }
    destruct Hh as [Hh|Hh]; rewrite Hh.
    + apply (fst_bind_stuck _ _ _ OutOfFuel); [|discriminate].
      apply generate_prime_one_bit.
    + destruct fuel as [|fuel]; [reflexivity|].
      rewrite (bind_run _ _ _ _ _ (generate_prime_two_bits fuel _)).
      rewrite (bind_run _ _ _ _ _ (generate_prime_two_bits fuel _)).
      apply (fst_bind_stuck _ _ _ OutOfFuel); [|discriminate].
      apply regenerate_q_three. exact Hh.
Qed.

Lemma generate_keypair_degenerate_witness :
  fst (generate_keypair 1 1 (world_of [])) = Raise ValueError /\
  fst (generate_keypair 40 4 (world_of [])) = OutOfFuel.
Proof.
  split.
  - apply (proj1 (generate_keypair_degenerate 0 1 (world_of []))). lia.
  - apply (proj2 (generate_keypair_degenerate 40 4 (world_of []))). lia.
Defined.

(** ** Shape of a generated key pair *)

Lemma generate_prime_bits fuel bits w p w' :
  generate_prime fuel bits w = (Done p, w') ->
  0 < bits /\ 2 ^ (bits - 1) <= p < 2 ^ bits.
Proof.
  revert w. induction fuel as [|fuel IH]; intros w H; [discriminate|].
  rewrite generate_prime_step in H.
  inv_bind H as v w1 Hv. inv_bind H as msb w2 Hmsb. inv_bind H as ok w3 Hok.
  destruct ok; [|apply IH in H; exact H].
  apply ret_Done in H. destruct H as [-> _].
  apply getrandbits_range in Hv. destruct Hv as [Hb Hv].
  apply lift_Done in Hmsb. destruct Hmsb as [Hshl _].
  unfold shl in Hshl. destruct (Z.ltb_spec (bits - 1) 0); [discriminate|].
  injection Hshl as <-. split; [lia|].
  apply (lor_msb_lsb_bounds v bits); [lia | exact Hv].
Qed.

Lemma regenerate_q_bits fuel inner bits p q w q' w' :
  regenerate_q fuel inner bits p q w = (Done q', w') ->
  2 ^ (bits / 2 - 1) <= q < 2 ^ (bits / 2) ->
  2 ^ (bits / 2 - 1) <= q' < 2 ^ (bits / 2).
Proof.
  revert q w. induction fuel as [|fuel IH]; intros q w H Hq; [discriminate|].
  simpl in H. destruct (p =? q).
  - inv_bind H as q1 w1 Hgen. apply generate_prime_bits in Hgen.
    apply IH in H; [exact H | apply Hgen].
  - apply ret_Done in H. destruct H as [-> _]. exact Hq.
Qed.

Lemma keypair_primes_bits fuel bits w p q w' :
  keypair_primes fuel bits w = (Done (p, q), w') ->
  0 < bits / 2 /\
  2 ^ (bits / 2 - 1) <= p < 2 ^ (bits / 2) /\
  2 ^ (bits / 2 - 1) <= q < 2 ^ (bits / 2).
Proof.
  unfold keypair_primes. rewrite emit_bind. intros H.
  inv_bind H as p1 w1 Hp. inv_bind H as q1 w2 Hq. inv_bind H as q2 w3 Hq2.
  apply ret_Done in H. destruct H as [H _]. injection H as <- <-.
  apply generate_prime_bits in Hp, Hq.
  apply regenerate_q_bits in Hq2; [|apply Hq].
  split; [apply Hp|]. split; [apply Hp | exact Hq2].
Qed.

(** X11. The modulus of a returned key pair is odd and has
    [2 * (bits // 2) - 1] or [2 * (bits // 2)] bits:
    [2^(2h-2) < n < 2^(2h)] with [h = bits // 2]. *)
Theorem generate_keypair_modulus_size
    (fuel : nat) (bits : Z) (w w' : world) (n e n' d : Z) :
  generate_keypair fuel bits w = (Done ((n, e), (n', d)), w') ->
  Z.odd n = true /\
  2 ^ (2 * (bits / 2) - 2) < n < 2 ^ (2 * (bits / 2)).
Proof.
  intros H. unfold generate_keypair in H. inv_bind H as pq w1 Hpq.
  destruct pq as [p q]. simpl fst in H. simpl snd in H.
  apply keypair_from_spec in H.
  destruct H as (e1 & d1 & wa & wb & _ & _ & Hpub & _).
  injection Hpub as -> _.
  pose proof (keypair_primes_spec _ _ _ _ _ _ Hpq) as (Hne & _ & _).
  assert (Hodd : Z.odd p = true /\ Z.odd q = true).
  { unfold keypair_primes in Hpq. rewrite emit_bind in Hpq.
    inv_bind Hpq as p1 wc Hp. inv_bind Hpq as q1 wd Hq.
    inv_bind Hpq as q2 we Hq2.
    apply ret_Done in Hpq. destruct Hpq as [Hpq _]. injection Hpq as <- <-.
    apply generate_prime_odd_ge_3 in Hp, Hq.
    apply regenerate_q_spec in Hq2; [|exact Hq]. split; [apply Hp | apply Hq2]. }
  apply keypair_primes_bits in Hpq. destruct Hpq as (Hh & Hp & Hq).
  set (h := bits / 2) in *. clearbody h.
  split.
  - rewrite Z.odd_mul. destruct Hodd as [-> ->]. reflexivity.
  - assert (Hlo : 2 ^ (2 * h - 2) = 2 ^ (h - 1) * 2 ^ (h - 1)).
    { rewrite <- Z.pow_add_r by lia. f_equal. lia. }
    assert (Hhi : 2 ^ (2 * h) = 2 ^ h * 2 ^ h).
    { rewrite <- Z.pow_add_r by lia. f_equal. lia. }
    rewrite Hlo, Hhi.
    assert (Hpos : 0 < 2 ^ (h - 1)) by (apply Z.pow_pos_nonneg; lia).
    set (lo := 2 ^ (h - 1)) in *. set (hi := 2 ^ h) in *. clearbody lo hi.
    split.
    + destruct (Z.lt_ge_cases lo p) as [Hlt|Hge].
      * apply Z.le_lt_trans with (lo * q).
        { apply Z.mul_le_mono_nonneg_l; lia. }
        apply Z.mul_lt_mono_pos_r; lia.
      * assert (p = lo) by lia. subst p.
        apply Z.mul_lt_mono_pos_l; lia.
    + apply Z.mul_lt_mono_nonneg; lia.
Qed.

Lemma generate_keypair_modulus_size_witness :
  Z.odd 35 = true /\ 2 ^ (2 * (6 / 2) - 2) < 35 < 2 ^ (2 * (6 / 2)).
Proof.
  eapply (generate_keypair_modulus_size 3 6 (world_of [5; 0; 0; 0; 0; 0; 7])).
  vm_compute. reflexivity.
Defined.

Lemma choose_e_range fuel e phi w e' w' :
  choose_e fuel e phi w = (Done e', w') ->
  (e' = e /\ w' = w) \/ 2 <= e' <= phi - 1.
Proof.
  revert e w. induction fuel as [|fuel IH]; intros e w H; [discriminate|].
  simpl in H. inv_bind H as g w1 Hg.
  apply lift_Done in Hg. destruct Hg as [Hg ->].
  destruct (negb (g =? 1)).
  - right. inv_bind H as e1 w2 Hr. apply randint_range in Hr.
    apply IH in H. destruct H as [[-> _]|H]; [exact Hr | exact H].
  - left. apply ret_Done in H. destruct H as [-> ->]. split; reflexivity.
Qed.

Lemma choose_e_keeps_coprime fuel e phi w e' w' :
  choose_e fuel e phi w = (Done e', w') -> gcd e phi = Done 1 ->
  e' = e /\ w' = w.
Proof.
  destruct fuel as [|fuel]; [discriminate|]. simpl. intros H Hg.
  rewrite Hg, lift_bind in H. simpl in H.
  apply ret_Done in H. exact H.
Qed.

(** X12. In a returned key pair the public exponent is [65537] exactly
    when [65537] is coprime with [phi = (p-1)*(q-1)], also when [phi] is
    smaller than [65537]; otherwise it is a drawn value of [2 .. phi - 1].
    The private exponent satisfies [1 <= d < phi]. *)
Theorem generate_keypair_exponents
    (fuel : nat) (bits : Z) (w w' w1 : world) (n e n' d p q : Z) :
  generate_keypair fuel bits w = (Done ((n, e), (n', d)), w') ->
  keypair_primes fuel bits w = (Done (p, q), w1) ->
  (e = 65537 <-> Z.gcd 65537 ((p - 1) * (q - 1)) = 1) /\
  (e = 65537 \/ 2 <= e <= (p - 1) * (q - 1) - 1) /\
  1 <= d < (p - 1) * (q - 1).
Proof.
  intros H Hpq.
  pose proof (keypair_primes_spec _ _ _ _ _ _ Hpq) as (_ & Hp3 & Hq3).
  unfold generate_keypair in H. rewrite (bind_run _ _ _ _ _ Hpq) in H.
  simpl fst in H. simpl snd in H. apply keypair_from_spec in H.
  destruct H as (e1 & d1 & wa & wb & Hch & Hinv & Hpub & Hpriv).
  injection Hpub as _ ->. injection Hpriv as _ ->.
  assert (Hphi : 1 < (p - 1) * (q - 1)).
  { pose proof (Z.mul_le_mono_nonneg 2 (p - 1) 2 (q - 1)
                  ltac:(lia) ltac:(lia) ltac:(lia) ltac:(lia)). lia. }
  set (phi := (p - 1) * (q - 1)) in *. clearbody phi.
  pose proof (choose_e_spec _ _ _ _ _ _ Hch ltac:(lia) ltac:(lia)) as [He Hg].
  pose proof Hg as Hg1. rewrite gcd_nonneg in Hg1 by lia. injection Hg1 as Hg1.
  destruct (mod_inverse_spec e1 phi He ltac:(lia) Hg1) as (x & Hx & Hr & Hmod).
  rewrite Hx in Hinv. injection Hinv as <-.
  rewrite Z.mod_1_l in Hmod by exact Hphi.
  split; [|split].
  - split.
    + intros ->. exact Hg1.
    + intros Hg0.
      apply (choose_e_keeps_coprime _ _ _ _ _ _ Hch).
      rewrite gcd_nonneg by lia. rewrite Hg0. reflexivity.
  - apply choose_e_range in Hch. destruct Hch as [[-> _]|Hrange];
      [left; reflexivity | right; exact Hrange].
  - split; [|lia]. destruct (Z.eq_dec x 0) as [->|]; [|lia].
    rewrite Z.mul_0_r, Z.mod_0_l in Hmod by lia. discriminate.
Qed.

Lemma generate_keypair_exponents_witness :
  (65537 = 65537 <-> Z.gcd 65537 ((5 - 1) * (7 - 1)) = 1) /\
  (65537 = 65537 \/ 2 <= 65537 <= (5 - 1) * (7 - 1) - 1) /\
  1 <= 17 < (5 - 1) * (7 - 1).
Proof.
  eapply (generate_keypair_exponents 3 6 (world_of [5; 0; 0; 0; 0; 0; 7])).
  - vm_compute. reflexivity.
  - vm_compute. reflexivity.
Defined.

(** ** [encrypt] and [decrypt] on accepted input *)

(** X13. With a non-negative exponent, a plaintext whose code points are
    all below [n] is encrypted block by block, in order: the result has
    one block [ord(c) ** e % n] per character, every block lies in
    [0 .. n - 1], and nothing is signalled. *)
Theorem encrypt_accepts (n e : Z) (plaintext : str) (w : world) :
  0 <= e ->
  Forall (fun c => ord c < n) plaintext ->
  exists blocks,
    encrypt (n, e) plaintext w = (Done blocks, w) /\
    blocks = map (fun c => ord c ^ e mod n) plaintext /\
    length blocks = length plaintext /\
    Forall (fun b => 0 <= b < n) blocks.
Proof.
  intros He Hall. eexists. split; [|split; [reflexivity|split]].
  - unfold encrypt. rewrite encrypt_loop_accepts by assumption. reflexivity.
  - apply length_map.
  - apply Forall_forall. intros b Hin. apply in_map_iff in Hin.
    destruct Hin as (c & <- & Hc).
    rewrite Forall_forall in Hall. specialize (Hall c Hc).
    pose proof (ord_range c). apply Z.mod_pos_bound. lia.
Qed.

Lemma encrypt_accepts_witness :
  exists blocks,
    encrypt (119, 5) [chr72; chr105] (world_of []) = (Done blocks, world_of [])
    /\ blocks = map (fun c => ord c ^ 5 mod 119) [chr72; chr105]
    /\ length blocks = length [chr72; chr105]
    /\ Forall (fun b => 0 <= b < 119) blocks.
Proof.
  apply (encrypt_accepts 119 5 [chr72; chr105] (world_of [])).
  - lia.
  - repeat constructor.
Defined.

(** X14. Encryption works character by character: when both parts are
    accepted, the blocks of a concatenation are the blocks of the first
    part followed by those of the second. *)
Theorem encrypt_app (n e : Z) (s1 s2 : str) (w : world) (b1 b2 : list Z) :
  0 <= e ->
  Forall (fun c => ord c < n) s1 -> Forall (fun c => ord c < n) s2 ->
  encrypt (n, e) s1 w = (Done b1, w) ->
  encrypt (n, e) s2 w = (Done b2, w) ->
  encrypt (n, e) (s1 ++ s2) w = (Done (b1 ++ b2), w).
Proof.
  intros He H1 H2. unfold encrypt.
  rewrite !encrypt_loop_accepts by (try apply Forall_app; auto).
  simpl. intros E1 E2. injection E1 as <-. injection E2 as <-.
  rewrite map_app. reflexivity.
Qed.

Lemma encrypt_app_witness :
  encrypt (119, 5) ([chr72] ++ [chr105]) (world_of [])
  = (Done ([4] ++ [56]), world_of []).
Proof.
  apply (encrypt_app 119 5 [chr72] [chr105] (world_of [])).
  - lia.
  - repeat constructor.
  - repeat constructor.
  - vm_compute. reflexivity.
  - vm_compute. reflexivity.
Defined.

Lemma bind_assoc {A B C} (c : M A) (k : A -> M B) (k' : B -> M C) w :
  (b <- (a <- c ;; k a) ;; k' b) w = (a <- c ;; b <- k a ;; k' b) w.
Proof. unfold bind. destruct (c w) as [[a|e|] w1]; reflexivity. Qed.

Lemma decrypt_loop_app n d c1 c2 acc w :
  decrypt_loop n d (c1 ++ c2) acc w
  = (s <- decrypt_loop n d c1 acc ;; decrypt_loop n d c2 s) w.
Proof.
  revert acc. induction c1 as [|c rest IH]; intros acc; simpl.
  - reflexivity.
  - rewrite !bind_assoc.
    destruct (pow3 c d n) as [x|ex|]; try reflexivity.
    rewrite !lift_bind.
    destruct (chr x) as [ch|ex|]; try reflexivity.
    rewrite !lift_bind. apply IH.
Qed.

Lemma decrypt_loop_acc n d ciphertext acc w s w' :
  decrypt_loop n d ciphertext acc w = (Done s, w') ->
  exists t, s = acc ++ t /\
    forall acc', decrypt_loop n d ciphertext acc' w = (Done (acc' ++ t), w').
Proof.
  revert acc. induction ciphertext as [|c rest IH]; intros acc H; simpl in H.
  - apply ret_Done in H. destruct H as [-> ->]. exists [].
    split; [rewrite app_nil_r; reflexivity|].
    intros acc'. simpl. rewrite app_nil_r. reflexivity.
  - inv_bind H as x w1 Hx. inv_bind H as ch w2 Hch.
    apply lift_Done in Hx, Hch. destruct Hx as [Hx ->], Hch as [Hch ->].
    apply IH in H. destruct H as (t & -> & Ht).
    exists (ch :: t). split; [rewrite <- app_assoc; reflexivity|].
    intros acc'. simpl. rewrite Hx, lift_bind, Hch, lift_bind, Ht.
    rewrite <- app_assoc. reflexivity.
Qed.

(** X15. Decryption works block by block.  When both parts decode, a
    concatenation decodes to the two strings joined; when the first part
    raises, the concatenation raises the same exception. *)
Theorem decrypt_app (n d : Z) (c1 c2 : list Z) (w : world) :
  (forall s1 s2,
     fst (decrypt (n, d) c1 w) = Done s1 ->
     fst (decrypt (n, d) c2 w) = Done s2 ->
     decrypt (n, d) (c1 ++ c2) w = (Done (s1 ++ s2), w)) /\
  (forall ex,
     fst (decrypt (n, d) c1 w) = Raise ex ->
     decrypt (n, d) (c1 ++ c2) w = (Raise ex, w)).
Proof.
  unfold decrypt. split.
  - intros s1 s2 H1 H2. rewrite decrypt_loop_app.
    pose proof (decrypt_loop_effects n d c1 [] w) as [Hw1 _].
    pose proof (decrypt_loop_effects n d c2 [] w) as [Hw2 _].
    destruct (decrypt_loop n d c1 [] w) as [r1 w1] eqn:E1.
    destruct (decrypt_loop n d c2 [] w) as [r2 w2] eqn:E2.
    simpl in H1, H2, Hw1, Hw2. subst.
    rewrite (bind_run _ _ _ _ _ E1).
    apply decrypt_loop_acc in E2. destruct E2 as (t & Ht & Hrun).
    simpl in Ht. subst t. apply Hrun.
  - intros ex H1. rewrite decrypt_loop_app.
    pose proof (decrypt_loop_effects n d c1 [] w) as [Hw1 _].
    unfold bind. destruct (decrypt_loop n d c1 [] w) as [r1 w1].
    simpl in H1, Hw1. subst. reflexivity.
Qed.

Lemma decrypt_app_witness :
  decrypt (119, 77) ([4] ++ [56]) (world_of [])
  = (Done ([chr72] ++ [chr105]), world_of []).
Proof.
  apply (proj1 (decrypt_app 119 77 [4] [56] (world_of []))).
  - vm_compute. reflexivity.
  - vm_compute. reflexivity.
Defined.

(** X16. The other round trip.  For a key pair built from two primes,
    blocks of [0 .. n - 1] that decode to code points are given back by
    encrypting their decryption. *)
Theorem encrypt_decrypt_roundtrip
    (fuel : nat) (bits : Z) (w w' w1 w2 : world) (n e n' d p q : Z)
    (ciphertext : list Z) :
  generate_keypair fuel bits w = (Done ((n, e), (n', d)), w') ->
  keypair_primes fuel bits w = (Done (p, q), w1) ->
  Z.prime p -> Z.prime q ->
  Forall (fun c => 0 <= c < n /\ c ^ d mod n < 1114112) ciphertext ->
  (plaintext <- decrypt (n', d) ciphertext ;; encrypt (n, e) plaintext) w2
  = (Done ciphertext, w2).
Proof.
  intros Hgen Hpq Hp Hq Hall. apply generate_keypair_spec in Hgen.
  destruct Hgen as (p1 & q1 & w3 & e1 & d1 & Hpq' & Hpub & Hpriv & Hne & Hp3 &
                    Hq3 & He & _ & _ & Hd & Hed).
  rewrite Hpq in Hpq'. injection Hpq' as <- <- _.
  injection Hpub as -> ->. injection Hpriv as -> ->.
  assert (Hn : 0 < p * q) by (apply Z.mul_pos_pos; lia).
  set (n := p * q) in *.
  assert (Hsmall : Forall (fun c => c ^ d1 mod n < 1114112) ciphertext).
  { eapply Forall_impl; [|exact Hall]. simpl. intros c Hc. apply Hc. }
  unfold decrypt.
  destruct (decrypt_loop_accepts n d1 ciphertext [] w2 Hn Hd Hsmall)
    as (s & Hrun & Hmap).
  rewrite (bind_run _ _ _ _ _ Hrun). simpl app. unfold encrypt.
  assert (Hords : Forall (fun c => ord c < n) s).
  { apply Forall_forall. intros c Hc.
    assert (Hin : In (ord c) (map ord s)) by (apply in_map; exact Hc).
    rewrite Hmap in Hin. apply in_map_iff in Hin. destruct Hin as (b & <- & _).
    apply Z.mod_pos_bound. exact Hn. }
  rewrite encrypt_loop_accepts by (try lia; exact Hords). simpl app.
  f_equal. f_equal.
  rewrite <- (map_map ord (fun z => z ^ e1 mod n)), Hmap, map_map.
  rewrite <- (map_id ciphertext) at 2. apply map_ext_in.
  intros c Hc. rewrite Forall_forall in Hall. destruct (Hall c Hc) as [Hr _].
  unfold n. apply rsa_exponents_cancel; try assumption; try lia.
  rewrite Z.mul_comm. exact Hed.
Qed.

Lemma encrypt_decrypt_roundtrip_witness :
  (plaintext <- decrypt (35, 17) [3; 10] ;; encrypt (35, 65537) plaintext)
    (world_of [])
  = (Done [3; 10], world_of []).
Proof.
  eapply (encrypt_decrypt_roundtrip 3 6 (world_of [5; 0; 0; 0; 0; 0; 7])).
  - vm_compute. reflexivity.
  - vm_compute. reflexivity.
  - exact prime_5.
  - exact prime_7.
  - repeat constructor; vm_compute; congruence.
Defined.

(** ** [is_prime] against trial division *)

Lemma trial_prime_spec n : trial_prime n = true <-> Z.prime n.
Proof.
  unfold trial_prime. rewrite andb_true_iff, forallb_forall, Z.ltb_lt.
  split.
  - intros [Hn Hall]. split; [exact Hn|]. intros k Hk Hdiv.
    assert (Hin : In k (map Z.of_nat (seq 2 (Z.to_nat n - 2)))).
    { apply in_map_iff. exists (Z.to_nat k). split; [lia|].
      apply in_seq. lia. }
    apply Hall in Hin. apply negb_true_iff, Z.eqb_neq in Hin.
    apply Hin. apply Z.mod_divide; [lia | exact Hdiv].
  - intros [Hn Hall]. split; [exact Hn|]. intros k Hin.
    apply in_map_iff in Hin. destruct Hin as (i & <- & Hi). apply in_seq in Hi.
    apply negb_true_iff, Z.eqb_neq. intros Hmod.
    apply (Hall (Z.of_nat i)); [lia|].
    apply Z.mod_divide; [lia | exact Hmod].
Qed.

Lemma bases_spec n a : 2 <= a <= n - 2 -> In a (bases n).
Proof.
  intros Ha. unfold bases. apply in_map_iff.
  exists (Z.to_nat (a - 2)). split; [lia|]. apply in_seq. lia.
Qed.

(** A round whose base does not pass ends the test with [False]. *)
Lemma witness_rounds_rejects k n s d w :
  4 <= n -> 0 <= d ->
  forallb (fun a => negb (round_passes n s d a)) (bases n) = true ->
  witness_rounds (S k) n s d w
  = (Done false, World (rng w) (S (cursor w)) (ui w)).
Proof.
  intros Hn Hd Hall. rewrite forallb_forall in Hall. simpl witness_rounds.
  unfold randint. destruct (Z.ltb_spec (n - 2) 2) as [Hlt|_]; [lia|].
  cbv [bind draw ret lift].
  set (a := 2 + rng w (cursor w) mod (n - 2 - 2 + 1)).
  assert (Ha : 2 <= a <= n - 2).
  { pose proof (Z.mod_pos_bound (rng w (cursor w)) (n - 2 - 2 + 1)
                  ltac:(lia)). unfold a. lia. }
  specialize (Hall a (bases_spec n a Ha)). apply negb_true_iff in Hall.
  unfold round_passes in Hall. clearbody a.
  destruct (pow3 a d n) as [x|ex|] eqn:Hpow.
  - apply orb_false_iff in Hall. destruct Hall as [Hfast Hsq]. rewrite Hfast.
    destruct (squarings_total (Z.to_nat (s - 1)) x n ltac:(lia)) as [b Hb].
    rewrite Hb in Hsq |- *. subst b. reflexivity.
  - rewrite pow3_nonneg in Hpow by lia. discriminate.
  - rewrite pow3_nonneg in Hpow by lia. discriminate.
Qed.

Lemma is_prime_rejects_9_15_21 n k w :
  n = 9 \/ n = 15 \/ n = 21 -> 1 <= k ->
  exists w', is_prime n k w = (Done false, w').
Proof.
  intros Hn Hk.
  assert (Hk' : Z.to_nat k = S (Z.to_nat k - 1)) by lia.
  destruct Hn as [-> | [-> | ->]].
  - change (is_prime 9 k w) with (witness_rounds (Z.to_nat k) 9 3 1 w).
    rewrite Hk', witness_rounds_rejects; [eexists; reflexivity | lia | lia |].
    vm_compute. reflexivity.
  - change (is_prime 15 k w) with (witness_rounds (Z.to_nat k) 15 1 7 w).
    rewrite Hk', witness_rounds_rejects; [eexists; reflexivity | lia | lia |].
    vm_compute. reflexivity.
  - change (is_prime 21 k w) with (witness_rounds (Z.to_nat k) 21 2 5 w).
    rewrite Hk', witness_rounds_rejects; [eexists; reflexivity | lia | lia |].
    vm_compute. reflexivity.
Qed.

(** X17. Below [25] the test is exact: for [n < 25] and at least one
    round, [is_prime] answers [True] exactly when [n] is prime, whatever
    witnesses are drawn.  ([25] is the first number it can get wrong.) *)
Theorem is_prime_exact_below_25 (n k : Z) (w : world) :
  n < 25 -> 1 <= k ->
  exists b w', is_prime n k w = (Done b, w') /\ (b = true <-> Z.prime n).
Proof.
  intros Hn Hk.
  destruct (trial_prime n) eqn:Htp.
  - apply trial_prime_spec in Htp.
    destruct (is_prime_on_prime n k w Htp) as [w' Hrun].
    exists true, w'. split; [exact Hrun|]. split; auto.
  - assert (Hnp : ~ Z.prime n).
    { intros Hp. apply trial_prime_spec in Hp. congruence. }
    assert (Hfalse : exists w', is_prime n k w = (Done false, w')).
    { destruct (Z.le_gt_cases n 1) as [H1|H1].
      - exists w. unfold is_prime.
        destruct (Z.leb_spec n 1); [reflexivity | lia].
      - assert (Hcases :
          n = 2 \/ n = 3 \/ n = 4 \/ n = 5 \/ n = 6 \/ n = 7 \/ n = 8 \/
          n = 9 \/ n = 10 \/ n = 11 \/ n = 12 \/ n = 13 \/ n = 14 \/
          n = 15 \/ n = 16 \/ n = 17 \/ n = 18 \/ n = 19 \/ n = 20 \/
          n = 21 \/ n = 22 \/ n = 23 \/ n = 24) by lia.
        repeat (destruct Hcases as [-> | Hcases]);
          try subst n;
          try (vm_compute in Htp; discriminate Htp);
          try (exists w; reflexivity);
          apply is_prime_rejects_9_15_21; auto. }
    destruct Hfalse as [w' Hrun]. exists false, w'.
    split; [exact Hrun|]. split; [discriminate | contradiction].
Qed.

Lemma is_prime_exact_below_25_witness :
  exists b w',
    is_prime 21 3 (world_of [4; 17]) = (Done b, w') /\
    (b = true <-> Z.prime 21).
Proof. apply (is_prime_exact_below_25 21 3); lia. Defined.

(** ** Sizes at which the generated primes are certain *)

Lemma generate_prime_passed fuel bits w p w' :
  generate_prime fuel bits w = (Done p, w') ->
  exists w1, is_prime p 5 w1 = (Done true, w').
Proof.
  revert w. induction fuel as [|fuel IH]; intros w H; [discriminate|].
  rewrite generate_prime_step in H.
  inv_bind H as v w1 Hv. inv_bind H as msb w2 Hmsb. inv_bind H as ok w3 Hok.
  destruct ok; [|apply IH in H; exact H].
  apply ret_Done in H. destruct H as [-> ->]. exists w2. exact Hok.
Qed.

Lemma is_prime_true_below_25 n k w w' :
  n < 25 -> 1 <= k -> is_prime n k w = (Done true, w') -> Z.prime n.
Proof.
  intros Hn Hk Hrun.
  destruct (trial_prime n) eqn:Htp; [apply trial_prime_spec; exact Htp|].
  exfalso.
  assert (Hfalse : exists w1, is_prime n k w = (Done false, w1)).
  { destruct (Z.le_gt_cases n 1) as [H1|H1].
    - exists w. unfold is_prime.
      destruct (Z.leb_spec n 1); [reflexivity | lia].
    - assert (Hcases :
        n = 2 \/ n = 3 \/ n = 4 \/ n = 5 \/ n = 6 \/ n = 7 \/ n = 8 \/
        n = 9 \/ n = 10 \/ n = 11 \/ n = 12 \/ n = 13 \/ n = 14 \/
        n = 15 \/ n = 16 \/ n = 17 \/ n = 18 \/ n = 19 \/ n = 20 \/
        n = 21 \/ n = 22 \/ n = 23 \/ n = 24) by lia.
      repeat (destruct Hcases as [-> | Hcases]);
        try subst n;
        try (vm_compute in Htp; discriminate Htp);
        try (exists w; reflexivity);
        apply is_prime_rejects_9_15_21; auto. }
  destruct Hfalse as [w1 Hf]. rewrite Hf in Hrun. discriminate.
Qed.

Lemma generate_prime_small_prime fuel bits w p w' :
  bits <= 4 -> generate_prime fuel bits w = (Done p, w') -> Z.prime p.
Proof.
  intros Hb H. pose proof (generate_prime_bits _ _ _ _ _ H) as [Hpos Hp].
  apply generate_prime_passed in H. destruct H as [w1 H].
  apply (is_prime_true_below_25 p 5 w1 w'); [|lia|exact H].
  assert (2 ^ bits <= 2 ^ 4) by (apply Z.pow_le_mono_r; lia).
  change (2 ^ 4) with 16 in *. lia.
Qed.

(** X18. Up to four bits the search is certain: a value returned by
    [generate_prime(bits)] with [bits <= 4] is a prime number. *)
Theorem generate_prime_certain_upto_4_bits
    (fuel : nat) (bits : Z) (w w' : world) (p : Z) :
  bits <= 4 -> generate_prime fuel bits w = (Done p, w') -> Z.prime p.
Proof. apply generate_prime_small_prime. Qed.

Lemma generate_prime_certain_upto_4_bits_witness : Z.prime 13.
Proof.
  apply (generate_prime_certain_upto_4_bits 1 4 (world_of [5])
           (World (tape_of [5]) 6 []) 13).
  - lia.
  - vm_compute. reflexivity.
Defined.

Lemma regenerate_q_prime fuel inner bits p q w q' w' :
  bits / 2 <= 4 ->
  regenerate_q fuel inner bits p q w = (Done q', w') ->
  Z.prime q -> Z.prime q'.
Proof.
  intros Hb. revert q w. induction fuel as [|fuel IH]; intros q w H Hq;
    [discriminate|].
  simpl in H. destruct (p =? q).
  - inv_bind H as q1 w1 Hgen. apply generate_prime_small_prime in Hgen;
      [|exact Hb].
    apply IH in H; assumption.
  - apply ret_Done in H. destruct H as [-> _]. exact Hq.
Qed.

Lemma keypair_primes_small fuel bits w p q w' :
  bits <= 9 -> keypair_primes fuel bits w = (Done (p, q), w') ->
  Z.prime p /\ Z.prime q.
Proof.
  intros Hb. assert (Hh : bits / 2 <= 4).
  { apply Z.lt_succ_r. apply Z.div_lt_upper_bound; lia. }
  unfold keypair_primes. rewrite emit_bind. intros H.
  inv_bind H as p1 w1 Hp. inv_bind H as q1 w2 Hq. inv_bind H as q2 w3 Hq2.
  apply ret_Done in H. destruct H as [H _]. injection H as <- <-.
  apply generate_prime_small_prime in Hp, Hq; try exact Hh.
  split; [exact Hp|]. apply (regenerate_q_prime _ _ _ _ _ _ _ _ Hh Hq2 Hq).
Qed.

(** The round trip for a key pair built from two primes. *)
Lemma keypair_roundtrip fuel bits w w' w1 w2 n e n' d p q plaintext :
  generate_keypair fuel bits w = (Done ((n, e), (n', d)), w') ->
  keypair_primes fuel bits w = (Done (p, q), w1) ->
  Z.prime p -> Z.prime q ->
  Forall (fun c => ord c < n) plaintext ->
  (ciphertext <- encrypt (n, e) plaintext ;; decrypt (n', d) ciphertext) w2
  = (Done plaintext, w2).
Proof.
  intros Hgen Hpq Hp Hq Hall. apply generate_keypair_spec in Hgen.
  destruct Hgen as (p1 & q1 & w3 & e1 & d1 & Hpq' & Hpub & Hpriv & Hne & Hp3 &
                    Hq3 & He & _ & _ & Hd & Hed).
  rewrite Hpq in Hpq'. injection Hpq' as <- <- _.
  injection Hpub as -> ->. injection Hpriv as -> ->.
  assert (Hn : 0 < p * q) by (apply Z.mul_pos_pos; lia).
  unfold encrypt, decrypt.
  rewrite (bind_run _ _ _ _ _
             (encrypt_loop_accepts (p * q) e1 plaintext [] w2 ltac:(lia) Hall)).
  simpl app.
  apply (decrypt_loop_inverts (p * q) e1 d1 plaintext [] w2 Hn Hd Hall).
  intros m Hm. apply rsa_exponents_cancel; try assumption. lia.
Qed.

(** X19. For key sizes up to nine bits the round trip needs no
    assumption: the key pair is built from certain primes, so every
    plaintext with code points below [n] decrypts to itself. *)
Theorem roundtrip_small_keys
    (fuel : nat) (bits : Z) (w w' w2 : world) (n e n' d : Z)
    (plaintext : str) :
  bits <= 9 ->
  generate_keypair fuel bits w = (Done ((n, e), (n', d)), w') ->
  Forall (fun c => ord c < n) plaintext ->
  (ciphertext <- encrypt (n, e) plaintext ;; decrypt (n', d) ciphertext) w2
  = (Done plaintext, w2).
Proof.
  intros Hb Hgen Hall. pose proof Hgen as Hspec.
  apply generate_keypair_spec in Hspec.
  destruct Hspec as (p & q & w1 & _ & _ & Hpq & _).
  destruct (keypair_primes_small _ _ _ _ _ _ Hb Hpq) as [Hp Hq].
  apply (keypair_roundtrip fuel bits w w' w1 w2 n e n' d p q); assumption.
Qed.

Lemma roundtrip_small_keys_witness :
  (ciphertext <- encrypt (35, 65537) [chr5; chr5] ;;
   decrypt (35, 17) ciphertext) (world_of [])
  = (Done [chr5; chr5], world_of []).
Proof.
  eapply (roundtrip_small_keys 3 6 (world_of [5; 0; 0; 0; 0; 0; 7])).
  - lia.
  - vm_compute. reflexivity.
  - repeat constructor.
Defined.

(** X20. For a key pair built from two primes, [encrypt] loses nothing:
    two accepted plaintexts with the same blocks are the same string. *)
Theorem encrypt_injective
    (fuel : nat) (bits : Z) (w w' w1 w2 : world) (n e n' d p q : Z)
    (s1 s2 : str) :
  generate_keypair fuel bits w = (Done ((n, e), (n', d)), w') ->
  keypair_primes fuel bits w = (Done (p, q), w1) ->
  Z.prime p -> Z.prime q ->
  Forall (fun c => ord c < n) s1 -> Forall (fun c => ord c < n) s2 ->
  fst (encrypt (n, e) s1 w2) = fst (encrypt (n, e) s2 w2) ->
  s1 = s2.
Proof.
  intros Hgen Hpq Hp Hq H1 H2 Heq.
  pose proof (keypair_roundtrip _ _ _ _ _ w2 _ _ _ _ _ _ s1 Hgen Hpq Hp Hq H1)
    as R1.
  pose proof (keypair_roundtrip _ _ _ _ _ w2 _ _ _ _ _ _ s2 Hgen Hpq Hp Hq H2)
    as R2.
  apply generate_keypair_spec in Hgen.
  destruct Hgen as (p1 & q1 & w3 & e1 & d1 & _ & Hpub & _ & _ & _ & _ & He & _).
  injection Hpub as _ ->.
  unfold encrypt in *.
  pose proof (encrypt_loop_accepts n e1 s1 [] w2 ltac:(lia) H1) as E1.
  pose proof (encrypt_loop_accepts n e1 s2 [] w2 ltac:(lia) H2) as E2.
  rewrite (bind_run _ _ _ _ _ E1) in R1. rewrite (bind_run _ _ _ _ _ E2) in R2.
  rewrite E1, E2 in Heq. simpl in Heq. injection Heq as Heq.
  simpl app in R1, R2. rewrite Heq in R1.
  rewrite R1 in R2. injection R2 as R2. exact R2.
Qed.

Lemma encrypt_injective_witness : [chr5] = [chr5].
Proof.
  eapply (encrypt_injective 3 6 (world_of [5; 0; 0; 0; 0; 0; 7])
            _ _ (world_of []) 35 65537 35 17 5 7 [chr5] [chr5]).
  - vm_compute. reflexivity.
  - vm_compute. reflexivity.
  - exact prime_5.
  - exact prime_7.
  - repeat constructor.
  - repeat constructor.
  - reflexivity.
Defined.

(** ** What [generate_keypair] shows *)

Lemma emit_run k args w u w' :
  emit k args w = (Done u, w') ->
  rng w' = rng w /\ ui w' = ui w ++ [UiCall k args].
Proof. unfold emit. intros H. injection H as _ <-. split; reflexivity. Qed.

Lemma getrandbits_quiet k w v w' :
  getrandbits k w = (Done v, w') ->
  rng w' = rng w /\ ui w' = ui w /\ cursor w' = S (cursor w).
Proof.
  unfold getrandbits. destruct (k <? 0); [discriminate|].
  cbv [bind draw ret]. intros H. injection H as _ <-. repeat split.
Qed.

Lemma randint_quiet lo hi w v w' :
  randint lo hi w = (Done v, w') ->
  rng w' = rng w /\ ui w' = ui w /\ cursor w' = S (cursor w).
Proof.
  unfold randint. destruct (hi <? lo); [discriminate|].
  cbv [bind draw ret]. intros H. injection H as _ <-. repeat split.
Qed.

Lemma generate_prime_quiet fuel bits w p w' :
  generate_prime fuel bits w = (Done p, w') ->
  rng w' = rng w /\ ui w' = ui w /\ (cursor w < cursor w')%nat.
Proof.
  revert w. induction fuel as [|fuel IH]; intros w H; [discriminate|].
  rewrite generate_prime_step in H.
  inv_bind H as v w1 Hv. inv_bind H as msb w2 Hmsb. inv_bind H as ok w3 Hok.
  apply getrandbits_quiet in Hv. destruct Hv as (Hr1 & Hu1 & Hc1).
  apply lift_Done in Hmsb. destruct Hmsb as [_ ->].
  destruct (is_prime_run (Z.lor v (Z.lor msb 1)) 5 w1)
    as (b & w4 & Hrun & Hr2 & Hu2 & Hc2).
  rewrite Hrun in Hok. injection Hok as -> ->.
  destruct ok.
  - apply ret_Done in H. destruct H as [_ ->].
    repeat split; try congruence. lia.
  - apply IH in H. destruct H as (Hr3 & Hu3 & Hc3).
    repeat split; try congruence. lia.
Qed.

Lemma regenerate_q_quiet fuel inner bits p q w q' w' :
  regenerate_q fuel inner bits p q w = (Done q', w') ->
  rng w' = rng w /\ ui w' = ui w.
Proof.
  revert q w. induction fuel as [|fuel IH]; intros q w H; [discriminate|].
  simpl in H. destruct (p =? q).
  - inv_bind H as q1 w1 Hgen. apply generate_prime_quiet in Hgen.
    apply IH in H. destruct Hgen as (? & ? & _), H. split; congruence.
  - apply ret_Done in H. destruct H as [_ ->]. split; reflexivity.
Qed.

Lemma choose_e_quiet fuel e phi w e' w' :
  choose_e fuel e phi w = (Done e', w') ->
  rng w' = rng w /\ ui w' = ui w.
Proof.
  revert e w. induction fuel as [|fuel IH]; intros e w H; [discriminate|].
  simpl in H. inv_bind H as g w1 Hg.
  apply lift_Done in Hg. destruct Hg as [_ ->].
  destruct (negb (g =? 1)).
  - inv_bind H as e1 w2 Hr. apply randint_quiet in Hr.
    apply IH in H. destruct Hr as (? & ? & _), H. split; congruence.
  - apply ret_Done in H. destruct H as [_ ->]. split; reflexivity.
Qed.

(** Step over an [emit] in [H], extending the account [Hui] of the log. *)
Ltac emit_step H Hui :=
  let u := fresh "u" in
  let wn := fresh "w" in
  let E := fresh "E" in
  apply bind_Done in H; destruct H as (u & wn & E & H);
  apply emit_run in E; destruct E as [_ E];
  rewrite Hui, <- app_assoc in E; simpl app in E;
  clear Hui; rename E into Hui; clear u.

(** X21. A finished [generate_keypair] has made exactly twenty-one
    streamlit calls, in this order; none is an [st.error], and among the
    values shown are the primes [p] and [q], [phi] and the private
    exponent [d].  The prime search and the exponent search show
    nothing. *)
Theorem generate_keypair_narration
    (fuel : nat) (bits : Z) (w w' w1 : world) (n e n' d p q : Z) :
  generate_keypair fuel bits w = (Done ((n, e), (n', d)), w') ->
  keypair_primes fuel bits w = (Done (p, q), w1) ->
  ui w' = ui w ++
    [UiCall Info [bits / 2]; UiCall Success []; UiCall Code [p; q];
     UiCall Expander []; UiCall Columns [2];
     UiCall Markdown []; UiCall Code [p]; UiCall Markdown []; UiCall Code [q];
     UiCall Info [n]; UiCall Info [(p - 1) * (q - 1)]; UiCall Info [];
     UiCall Info []; UiCall Success [e; d]; UiCall Expander [];
     UiCall Markdown []; UiCall Code [e]; UiCall Markdown []; UiCall Code [d];
     UiCall Markdown []; UiCall Code [n]].
Proof.
  intros H Hpq. unfold generate_keypair in H.
  rewrite (bind_run _ _ _ _ _ Hpq) in H. simpl fst in H. simpl snd in H.
  assert (Hui : ui w1 = ui w ++ [UiCall Info [bits / 2]]).
  { unfold keypair_primes in Hpq.
    inv_bind Hpq as u wa Hu. inv_bind Hpq as p1 wb Hp.
    inv_bind Hpq as q1 wc Hq. inv_bind Hpq as q2 wd Hq2.
    apply ret_Done in Hpq. destruct Hpq as [_ ->].
    apply emit_run in Hu. apply generate_prime_quiet in Hp, Hq.
    apply regenerate_q_quiet in Hq2.
    destruct Hu as [_ Hu], Hp as (_ & Hp & _), Hq as (_ & Hq & _),
             Hq2 as [_ Hq2]. congruence. }
  unfold keypair_from in H.
  do 11 emit_step H Hui.
  inv_bind H as e1 wa He. apply choose_e_quiet in He. destruct He as [_ He].
  rewrite Hui in He. clear Hui. rename He into Hui.
  emit_step H Hui.
  inv_bind H as d1 wb Hd. apply lift_Done in Hd. destruct Hd as [_ ->].
  do 8 emit_step H Hui.
  apply ret_Done in H. destruct H as [H ->]. injection H as -> -> _ ->.
  exact Hui.
Qed.

Lemma generate_keypair_narration_witness :
  ui (snd (generate_keypair 3 6 (world_of [5; 0; 0; 0; 0; 0; 7])))
  = ui (world_of [5; 0; 0; 0; 0; 0; 7]) ++
    [UiCall Info [6 / 2]; UiCall Success []; UiCall Code [5; 7];
     UiCall Expander []; UiCall Columns [2];
     UiCall Markdown []; UiCall Code [5]; UiCall Markdown []; UiCall Code [7];
     UiCall Info [35]; UiCall Info [(5 - 1) * (7 - 1)]; UiCall Info [];
     UiCall Info []; UiCall Success [65537; 17]; UiCall Expander [];
     UiCall Markdown []; UiCall Code [65537]; UiCall Markdown [];
     UiCall Code [17]; UiCall Markdown []; UiCall Code [35]].
Proof.
  eapply (generate_keypair_narration 3 6 (world_of [5; 0; 0; 0; 0; 0; 7])
            _ _ 35 65537 35 17 5 7).
  - vm_compute. reflexivity.
  - vm_compute. reflexivity.
Defined.

(** ** Unpadded blocks *)

(** X22. Blocks multiply: with a non-negative exponent, if the code point
    of [c] is the product of those of [a] and [b] modulo [n], then the
    block of [c] is the product of the blocks of [a] and [b] modulo [n]. *)
Theorem encrypt_multiplicative (n e : Z) (a b c : char) (w : world) :
  0 <= e ->
  ord a < n -> ord b < n -> ord c = (ord a * ord b) mod n ->
  exists x y,
    encrypt (n, e) [a] w = (Done [x], w) /\
    encrypt (n, e) [b] w = (Done [y], w) /\
    encrypt (n, e) [c] w = (Done [(x * y) mod n], w).
Proof.
  intros He Ha Hb Hc. pose proof (ord_range a) as Ra.
  assert (Hn : 0 < n) by lia.
  assert (Hcn : ord c < n).
  { rewrite Hc. apply Z.mod_pos_bound. exact Hn. }
  exists (ord a ^ e mod n), (ord b ^ e mod n). unfold encrypt.
  rewrite !encrypt_loop_accepts by (try lia; repeat constructor; assumption).
  simpl. repeat split. do 2 f_equal.
  rewrite Hc, Z.mod_pow_l, Z.pow_mul_l.
  rewrite Z.mul_mod by lia. reflexivity.
Qed.

Lemma encrypt_multiplicative_witness :
  exists x y,
    encrypt (119, 5) [chr5] (world_of []) = (Done [x], world_of []) /\
    encrypt (119, 5) [chr72] (world_of []) = (Done [y], world_of []) /\
    encrypt (119, 5) [Char 3 eq_refl] (world_of [])
    = (Done [(x * y) mod 119], world_of []).
Proof.
  apply (encrypt_multiplicative 119 5 chr5 chr72 (Char 3 eq_refl)).
  - lia.
  - simpl. lia.
  - simpl. lia.
  - reflexivity.
Defined.

Lemma decrypt_loop_congruent n d cs cs' acc w :
  0 < n -> 0 <= d ->
  Forall2 (fun c c' => c mod n = c' mod n) cs cs' ->
  decrypt_loop n d cs acc w = decrypt_loop n d cs' acc w.
Proof.
  intros Hn Hd Hall. revert acc.
  induction Hall as [|c c' cs cs' Hc Hrest IH]; intros acc; [reflexivity|].
  simpl. rewrite !pow3_nonneg by lia.
  rewrite <- (Z.mod_pow_l c), Hc, Z.mod_pow_l. rewrite !lift_bind.
  destruct (chr (c' ^ d mod n)) as [ch|ex|].
  - rewrite !lift_bind. apply IH.
  - reflexivity.
  - reflexivity.
Qed.

(** X23. [decrypt] reads every block modulo [n]: for [n > 0] and
    [d >= 0], two ciphertexts whose blocks agree modulo [n] position by
    position give the same result, so a block is not checked to lie
    below [n]. *)
Theorem decrypt_reads_blocks_mod_n (n d : Z) (cs cs' : list Z) (w : world) :
  0 < n -> 0 <= d ->
  Forall2 (fun c c' => c mod n = c' mod n) cs cs' ->
  decrypt (n, d) cs w = decrypt (n, d) cs' w.
Proof.
  intros Hn Hd Hall. unfold decrypt. apply decrypt_loop_congruent; assumption.
Qed.

Lemma decrypt_reads_blocks_mod_n_witness :
  decrypt (119, 77) [4; 56] (world_of [])
  = decrypt (119, 77) [123; 56 - 119] (world_of []).
Proof.
  apply (decrypt_reads_blocks_mod_n 119 77).
  - lia.
  - lia.
  - repeat constructor.
Defined.

(** ** Keys of realistic size *)

Lemma generate_keypair_modulus_lower fuel bits w w' n e n' d :
  generate_keypair fuel bits w = (Done ((n, e), (n', d)), w') ->
  0 <= e /\ n' = n /\ 2 ^ (2 * (bits / 2) - 2) < n.
Proof.
  intros H. pose proof H as Hspec. apply generate_keypair_spec in Hspec.
  destruct Hspec as (p & q & w1 & e1 & d1 & Hpq & Hpub & Hpriv & Hne & Hp3 &
                     Hq3 & He & _).
  injection Hpub as -> ->. injection Hpriv as -> _.
  split; [lia|]. split; [reflexivity|].
  apply keypair_primes_bits in Hpq. destruct Hpq as (Hh & Hp & Hq).
  set (h := bits / 2) in *. clearbody h.
  assert (Hlo : 2 ^ (2 * h - 2) = 2 ^ (h - 1) * 2 ^ (h - 1)).
  { rewrite <- Z.pow_add_r by lia. f_equal. lia. }
  rewrite Hlo.
  assert (Hpos : 0 < 2 ^ (h - 1)) by (apply Z.pow_pos_nonneg; lia).
  set (lo := 2 ^ (h - 1)) in *. clearbody lo.
  destruct (Z.lt_ge_cases lo p) as [Hlt|Hge].
  - apply Z.le_lt_trans with (lo * q).
    { apply Z.mul_le_mono_nonneg_l; lia. }
    apply Z.mul_lt_mono_pos_r; lia.
  - assert (p = lo) by lia. subst p.
    apply Z.mul_lt_mono_pos_l; lia.
Qed.

Lemma large_modulus_accepts bits n (s : str) :
  24 <= bits -> 2 ^ (2 * (bits / 2) - 2) < n ->
  Forall (fun c => ord c < n) s.
Proof.
  intros Hb Hn. apply Forall_forall. intros c _.
  pose proof (ord_range c) as Hc.
  assert (Hh : 12 <= bits / 2) by (apply Z.div_le_lower_bound; lia).
  assert (Hpow : 2 ^ 22 <= 2 ^ (2 * (bits / 2) - 2)).
  { apply Z.pow_le_mono_r; lia. }
  change (2 ^ 22) with 4194304 in Hpow. lia.
Qed.

(** X24. With a key size of at least 24 bits, as with every size the
    page offers, the modulus is above every code point: [encrypt] under a
    generated public key accepts every string and returns one block per
    character. *)
Theorem encrypt_accepts_all_with_generated_key
    (fuel : nat) (bits : Z) (w w' w2 : world) (n e n' d : Z)
    (plaintext : str) :
  24 <= bits ->
  generate_keypair fuel bits w = (Done ((n, e), (n', d)), w') ->
  exists blocks,
    encrypt (n, e) plaintext w2 = (Done blocks, w2) /\
    length blocks = length plaintext.
Proof.
  intros Hb H. apply generate_keypair_modulus_lower in H.
  destruct H as (He & _ & Hn).
  pose proof (large_modulus_accepts bits n plaintext Hb Hn) as Hall.
  eexists. unfold encrypt. rewrite encrypt_loop_accepts by assumption.
  split; [reflexivity|]. simpl. apply length_map.
Qed.

(** X25. With a key size of at least 24 bits and a key pair built from
    two primes, every string decrypts to itself, whatever its code
    points. *)
Theorem roundtrip_every_string
    (fuel : nat) (bits : Z) (w w' w1 w2 : world) (n e n' d p q : Z)
    (plaintext : str) :
  24 <= bits ->
  generate_keypair fuel bits w = (Done ((n, e), (n', d)), w') ->
  keypair_primes fuel bits w = (Done (p, q), w1) ->
  Z.prime p -> Z.prime q ->
  (ciphertext <- encrypt (n, e) plaintext ;; decrypt (n', d) ciphertext) w2
  = (Done plaintext, w2).
Proof.
  intros Hb H Hpq Hp Hq.
  pose proof (generate_keypair_modulus_lower _ _ _ _ _ _ _ _ H) as (_ & _ & Hn).
  apply (keypair_roundtrip fuel bits w w' w1 w2 n e n' d p q); try assumption.
  apply (large_modulus_accepts bits); assumption.
Qed.

Lemma prime_2053 : Z.prime 2053.
Proof. apply trial_prime_spec. vm_compute. reflexivity. Qed.

Lemma prime_2063 : Z.prime 2063.
Proof. apply trial_prime_spec. vm_compute. reflexivity. Qed.

Lemma encrypt_accepts_all_with_generated_key_witness :
  exists blocks,
    encrypt (4235339, 65537) [chr72; Char 128512 eq_refl] (world_of [])
    = (Done blocks, world_of []) /\
    length blocks = length [chr72; Char 128512 eq_refl].
Proof.
  eapply (encrypt_accepts_all_with_generated_key 3 24
            (world_of [2053; 0; 0; 0; 0; 0; 2063])).
  - lia.
  - vm_compute. reflexivity.
Defined.

Lemma roundtrip_every_string_witness :
  (ciphertext <- encrypt (4235339, 65537) [chr72; Char 128512 eq_refl] ;;
   decrypt (4235339, 4138577) ciphertext) (world_of [])
  = (Done [chr72; Char 128512 eq_refl], world_of []).
Proof.
  eapply (roundtrip_every_string 3 24 (world_of [2053; 0; 0; 0; 0; 0; 2063])).
  - lia.
  - vm_compute. reflexivity.
  - vm_compute. reflexivity.
  - exact prime_2053.
  - exact prime_2063.
Defined.

Lemma keypair_primes_odd fuel bits w p q w' :
  keypair_primes fuel bits w = (Done (p, q), w') ->
  Z.odd p = true /\ Z.odd q = true.
Proof.
  unfold keypair_primes. rewrite emit_bind. intros H.
  inv_bind H as p1 w1 Hp. inv_bind H as q1 w2 Hq. inv_bind H as q2 w3 Hq2.
  apply ret_Done in H. destruct H as [H _]. injection H as <- <-.
  apply generate_prime_odd_ge_3 in Hp, Hq.
  apply regenerate_q_spec in Hq2; [|exact Hq].
  split; [apply Hp | apply Hq2].
Qed.

(** X26. In a returned key pair [phi = (p-1)*(q-1)] is a multiple of
    four and both exponents are odd. *)
Theorem generate_keypair_exponents_odd
    (fuel : nat) (bits : Z) (w w' w1 : world) (n e n' d p q : Z) :
  generate_keypair fuel bits w = (Done ((n, e), (n', d)), w') ->
  keypair_primes fuel bits w = (Done (p, q), w1) ->
  ((p - 1) * (q - 1)) mod 4 = 0 /\ Z.odd e = true /\ Z.odd d = true.
Proof.
  intros H Hpq. apply generate_keypair_spec in H.
  destruct H as (p1 & q1 & w2 & e1 & d1 & Hpq' & Hpub & Hpriv & _ & Hp3 &
                 Hq3 & He & Hg & _ & Hd & Hed).
  rewrite Hpq in Hpq'. injection Hpq' as <- <- _.
  injection Hpub as _ ->. injection Hpriv as _ ->.
  destruct (keypair_primes_odd _ _ _ _ _ _ Hpq) as [Hop Hoq].
  apply Z.odd_spec in Hop, Hoq. destruct Hop as [a ->], Hoq as [b ->].
  replace ((2 * a + 1 - 1) * (2 * b + 1 - 1)) with (a * b * 4) in * by ring.
  assert (Hphi : 0 < a * b * 4) by nia.
  set (phi4 := a * b) in *. clearbody phi4.
  rewrite gcd_nonneg in Hg by lia. injection Hg as Hg.
  split; [apply Z.mod_mul; lia|].
  assert (Hoe : Z.odd e1 = true).
  { destruct (Z.odd e1) eqn:Ho; [reflexivity|]. exfalso.
    rewrite <- Z.negb_even in Ho. apply negb_false_iff, Z.even_spec in Ho.
    destruct Ho as [c ->].
    assert (Hdiv : (2 | Z.gcd (2 * c) (phi4 * 4))).
    { apply Z.gcd_greatest; [exists c; lia | exists (phi4 * 2); lia]. }
    rewrite Hg in Hdiv. destruct Hdiv as [z Hz]. lia. }
  split; [exact Hoe|].
  destruct (Z.odd d1) eqn:Ho; [reflexivity|]. exfalso.
  rewrite <- Z.negb_even in Ho. apply negb_false_iff, Z.even_spec in Ho.
  destruct Ho as [c ->].
  pose proof (Z.div_mod (e1 * (2 * c)) (phi4 * 4) ltac:(lia)) as Hdm.
  rewrite Hed in Hdm.
  set (k := e1 * (2 * c) / (phi4 * 4)) in *. clearbody k. lia.
Qed.

Lemma generate_keypair_exponents_odd_witness :
  ((5 - 1) * (7 - 1)) mod 4 = 0 /\ Z.odd 65537 = true /\ Z.odd 17 = true.
Proof.
  eapply (generate_keypair_exponents_odd 3 6
            (world_of [5; 0; 0; 0; 0; 0; 7])).
  - vm_compute. reflexivity.
  - vm_compute. reflexivity.
Defined.
